(** * BlockingQueue: a shallow embedding of [BlockingQueue.h]

    The header defines a monitor (one [std::mutex], one
    [std::condition_variable_any], one atomic owner register) around a
    sequential container.  The embedding keeps that structure:

    - the container is an interface ([Queue]) with the four members the
      header requires ([push], [pop], [front], [empty]); [std::queue] and
      [PriorityQueueWrapper<std::priority_queue>] are instances;
    - the object state is the record [BlockingQueue] with the four data
      members [q], [m], [cv], [owningThread];
    - every member function is a computation in a small state-and-error
      monad [M]; a computation returns normally, throws, suspends inside
      [cv.wait], or cannot proceed (the mutex is held by another thread, the
      C++ standard leaves the behaviour undefined, or a loop ran out of fuel);
    - concurrency is an interleaving of member-function executions: each call
      runs from its entry to its return or to the point where it blocks in
      [cv.wait]; a suspended call is resumed later from its saved call stack.
      Storage is only ever touched by the thread holding [m], and other
      threads only compare the owner register with their own identity, so the
      interleaving of whole critical sections loses no behaviour of the
      claims proved here.

    The move constructor, which involves two queue objects, is the
    computation [BlockingQueue_move]: it runs on the source object and
    returns the new one. *)

From Stdlib Require Import List Arith Bool Lia Permutation.
Import ListNotations.

Set Implicit Arguments.

(** ** Thread identities *)

(** A running thread. *)
Definition tid := nat.

(** [std::thread::id]: either the identity of a running thread or the
    default-constructed value that names no thread. *)
Definition thread_id := option tid.

(** [std::thread::id()] *)
Definition no_thread : thread_id := None.

(** [std::this_thread::get_id()] evaluated by thread [t]. *)
Definition this_thread_get_id (t : tid) : thread_id := Some t.

(** [operator==] on [std::thread::id]. *)
Definition thread_id_eqb (a b : thread_id) : bool :=
  match a, b with
  | None, None => true
  | Some x, Some y => Nat.eqb x y
  | _, _ => false
  end.

(** ** The container interface

    "Queue must support push(), pop(), front(), empty()".  [front] and [pop]
    on an empty container are undefined in C++; they are partial here. *)

Class Queue (T Q : Type) := {
  q_new : Q;
  q_push : T -> Q -> Q;
  q_pop : Q -> option Q;
  q_front : Q -> option T;
  q_empty : Q -> bool
}.

(** What the header relies on: the container holds a finite collection of
    items; [empty] tests it; on a non-empty container [front] and [pop] are
    defined and [pop] removes the item [front] shows; [push] adds one item. *)
Class QueueSpec (T Q : Type) `{Queue T Q} := {
  q_items : Q -> list T;
  q_new_items : q_items q_new = [];
  q_empty_items : forall c, q_empty c = true <-> q_items c = [];
  q_front_pop_items : forall c, q_items c <> [] ->
    exists x c', q_front c = Some x /\ q_pop c = Some c' /\
                 Permutation (q_items c) (x :: q_items c');
  q_empty_undefined : forall c, q_items c = [] ->
    q_front c = None /\ q_pop c = None;
  q_push_items : forall x c, Permutation (q_items (q_push x c)) (x :: q_items c)
}.

(** *** [std::queue<T>]: insertion at the back, removal at the front. *)

Definition std_queue (T : Type) := list T.

#[export] Instance std_queue_Queue (T : Type) : Queue T (std_queue T) := {|
  q_new := [];
  q_push := fun x c => c ++ [x];
  q_pop := fun c => match c with [] => None | _ :: r => Some r end;
  q_front := fun c => match c with [] => None | x :: _ => Some x end;
  q_empty := fun c => match c with [] => true | _ :: _ => false end
|}.

(** *** [std::priority_queue<T>] and its adaptor

    The priority queue is a member of the C++ standard library; it is
    modelled by its contract: [top] is an element no other element exceeds
    under the comparator, [pop] removes that element, [push] adds one. *)

Class PriorityQueue (T P : Type) := {
  pq_new : P;
  pq_push : T -> P -> P;
  pq_pop : P -> option P;
  pq_top : P -> option T;
  pq_empty : P -> bool
}.

(** The container type records its comparator, as the template argument
    does. *)
Definition std_priority_queue {T : Type} (less : T -> T -> bool) : Type := list T.

Section StdPriorityQueue.
Context {T : Type} (less : T -> T -> bool).

(** Select a greatest element and the remaining ones. *)
Fixpoint extract_max (l : list T) : option (T * list T) :=
  match l with
  | [] => None
  | x :: r =>
      match extract_max r with
      | None => Some (x, [])
      | Some (y, r') => if less y x then Some (x, r) else Some (y, x :: r')
      end
  end.

Definition std_priority_queue_ops : PriorityQueue T (std_priority_queue less) := {|
  pq_new := [];
  pq_push := fun x c => x :: c;
  pq_pop := fun c => option_map snd (extract_max c);
  pq_top := fun c => option_map fst (extract_max c);
  pq_empty := fun c => match c with [] => true | _ :: _ => false end
|}.

End StdPriorityQueue.

#[export] Existing Instance std_priority_queue_ops.

(** What [std::priority_queue] requires of its [Compare]: a strict weak
    order (irreflexive, transitive, and so is "neither is less"). *)
Definition strict_weak_order {T : Type} (less : T -> T -> bool) : Prop :=
  (forall x, less x x = false) /\
  (forall x y z, less x y = true -> less y z = true -> less x z = true) /\
  (forall x y z, less x y = false -> less y z = false -> less x z = false).

(** [PriorityQueueWrapper<PriorityQueue>] inherits every member of the
    priority queue and adds [front()], which returns [PriorityQueue::top()]. *)
Definition PriorityQueueWrapper (P : Type) : Type := P.

Definition front {T P : Type} `{PriorityQueue T P}
  (c : PriorityQueueWrapper P) : option T := pq_top c.

#[export] Instance PriorityQueueWrapper_Queue {T P : Type} `{PriorityQueue T P}
  : Queue T (PriorityQueueWrapper P) := {|
  q_new := pq_new;
  q_push := pq_push;
  q_pop := pq_pop;
  q_front := front;
  q_empty := pq_empty
|}.

(** The container types are told apart by name, as template arguments are. *)
#[global] Typeclasses Opaque std_queue std_priority_queue PriorityQueueWrapper.

(** ** Object state, events and the monad of member functions *)

(** Calls the instrumented primitives leave in the trace (newest first). *)
Inductive event : Type :=
| EvLock (t : tid)                 (* [BlockingQueue::lock()] returned to [t] *)
| EvTryLock (t : tid)              (* [BlockingQueue::try_lock()] returned true to [t] *)
| EvUnlock (t : tid)               (* [BlockingQueue::unlock()] called by [t] *)
| EvWait (t : tid)                 (* [t] blocked inside [cv.wait] *)
| EvNotifyOne (woken : option tid) (* [cv.notify_one()], and whom it unblocked *).

(** The exception [std::out_of_range("BlockingQueue is empty.")]. *)
Inductive exception : Type := out_of_range.

(** Why a call cannot proceed. *)
Inductive stuck : Type :=
| Blocked      (* [m.lock()] while another thread holds [m] *)
| Undefined    (* undefined behaviour in the C++ standard *)
| OutOfFuel.   (* the loop bound of the model was reached *)

(** [std::unique_lock<BlockingQueue>]: whether it owns the queue's lock. *)
Record unique_lock : Type := { owns : bool }.

(** The call stack of a thread blocked in [cv.wait]. *)
Inductive frame : Type :=
| KWait                                       (* in [pop_impl], inside [cv.wait] *)
| KClear (fuel : nat) (k : frame)             (* in [clear_impl], inside its call of [pop_impl] *)
| KScope (locker : unique_lock) (k : frame).  (* in a public operation holding [locker] *)

Section BlockingQueue.
Context {T Q : Type} `{Queue T Q}.

(** How [cv.notify_one()] chooses among the blocked threads: unspecified in
    C++, so every result below holds for every choice. *)
Variable choose : list tid -> nat.

(** The data members of [class BlockingQueue]. *)
Record BlockingQueue : Type := {
  q : Q;                      (* the underlying container *)
  m : option tid;             (* [std::mutex]: free, or locked by a thread *)
  cv : list tid;              (* threads blocked on [cv] *)
  owningThread : thread_id    (* thread id of the current owner *)
}.

Record world : Type := { bq : BlockingQueue; trace : list event }.

Definition set_q (c : Q) (w : world) : world :=
  {| bq := {| q := c; m := m (bq w); cv := cv (bq w);
              owningThread := owningThread (bq w) |};
     trace := trace w |}.

Definition set_m (v : option tid) (w : world) : world :=
  {| bq := {| q := q (bq w); m := v; cv := cv (bq w);
              owningThread := owningThread (bq w) |};
     trace := trace w |}.

Definition set_cv (v : list tid) (w : world) : world :=
  {| bq := {| q := q (bq w); m := m (bq w); cv := v;
              owningThread := owningThread (bq w) |};
     trace := trace w |}.

Definition set_owningThread (v : thread_id) (w : world) : world :=
  {| bq := {| q := q (bq w); m := m (bq w); cv := cv (bq w);
              owningThread := v |};
     trace := trace w |}.

Definition log (e : event) (w : world) : world :=
  {| bq := bq w; trace := e :: trace w |}.

(** [BlockingQueue::BlockingQueue()] : [owningThread(std::thread::id())]. *)
Definition BlockingQueue_new : world :=
  {| bq := {| q := q_new; m := None; cv := []; owningThread := no_thread |};
     trace := [] |}.

Inductive result (A : Type) : Type :=
| Ret (a : A) (w : world)               (* normal return *)
| Throw (e : exception) (w : world)     (* an exception leaves the function *)
| Suspend (k : frame) (w : world)       (* the thread sleeps in [cv.wait] *)
| Stuck (s : stuck).

Arguments Throw {A} e w.
Arguments Suspend {A} k w.
Arguments Stuck {A} s.

Definition M (A : Type) : Type := world -> result A.

Definition ret {A : Type} (a : A) : M A := fun w => Ret a w.

Definition bind {A B : Type} (c : M A) (f : A -> M B) : M B :=
  fun w =>
    match c w with
    | Ret a w' => f a w'
    | Throw e w' => Throw e w'
    | Suspend k w' => Suspend k w'
    | Stuck s => Stuck s
    end.

Definition throw {A : Type} (e : exception) : M A := fun w => Throw e w.

Definition modify (f : world -> world) : M unit := fun w => Ret tt (f w).

Notation "x <- c1 ;; c2" := (bind c1 (fun x => c2))
  (at level 61, c1 at next level, right associativity).
Notation "c1 ;; c2" := (bind c1 (fun _ => c2))
  (at level 61, right associativity).

(** *** [std::mutex m] *)

(** [m.lock()]: blocks while another thread holds [m]; undefined when the
    caller already holds it. *)
Definition m_lock (t : tid) : M unit := fun w =>
  match m (bq w) with
  | None => Ret tt (set_m (Some t) w)
  | Some u => if Nat.eqb u t then Stuck Undefined else Stuck Blocked
  end.

(** [m.try_lock()]: never blocks; may fail spuriously on a free mutex;
    undefined when the caller already holds it. *)
Definition m_try_lock (t : tid) (spurious : bool) : M bool := fun w =>
  match m (bq w) with
  | None => if spurious then Ret false w else Ret true (set_m (Some t) w)
  | Some u => if Nat.eqb u t then Stuck Undefined else Ret false w
  end.

(** [m.unlock()]: undefined unless the caller holds [m]. *)
Definition m_unlock (t : tid) : M unit := fun w =>
  match m (bq w) with
  | Some u => if Nat.eqb u t then Ret tt (set_m None w) else Stuck Undefined
  | None => Stuck Undefined
  end.

(** *** [std::condition_variable_any cv] *)

(** Take the element at index [i] (the last one when [i] is too large) out
    of the non-empty list [x :: r]. *)
Fixpoint pick_out (i : nat) (x : tid) (r : list tid) : tid * list tid :=
  match i, r with
  | S j, y :: r' => let (z, rest) := pick_out j y r' in (z, x :: rest)
  | _, _ => (x, r)
  end.

(** [cv.notify_one()]: unblocks one of the blocked threads, if any. *)
Definition cv_notify_one : M unit := fun w =>
  match cv (bq w) with
  | [] => Ret tt (log (EvNotifyOne None) w)
  | x :: r =>
      let (z, rest) := pick_out (choose (x :: r)) x r in
      Ret tt (log (EvNotifyOne (Some z)) (set_cv rest w))
  end.

(** *** The lock surface of the queue *)

Definition lock (t : tid) : M unit :=
  m_lock t ;;
  modify (set_owningThread (this_thread_get_id t)) ;;
  modify (log (EvLock t)).

Definition try_lock (t : tid) (spurious : bool) : M bool :=
  ok <- m_try_lock t spurious ;;
  if ok then
    modify (set_owningThread (this_thread_get_id t)) ;;
    modify (log (EvTryLock t)) ;;
    ret true
  else ret false.

Definition unlock (t : tid) : M unit :=
  modify (set_owningThread no_thread) ;;
  m_unlock t ;;
  modify (log (EvUnlock t)).

Definition owns_lock (t : tid) (w : world) : bool :=
  thread_id_eqb (owningThread (bq w)) (this_thread_get_id t).

(** [get_lock()]: a deferred lock when the caller already owns the queue,
    a locking one otherwise. *)
Definition get_lock (t : tid) : M unique_lock := fun w =>
  if owns_lock t w then
    Ret {| owns := false |} w
  else
    (lock t ;; ret {| owns := true |}) w.

(** [~unique_lock()]: unlocks only a lock that owns. *)
Definition unique_lock_dtor (t : tid) (locker : unique_lock) : M unit :=
  if owns locker then unlock t else ret tt.

(** Leaving the scope of [locker] with the outcome [r] of the body: the
    destructor runs on normal return and while an exception unwinds; a
    suspended body keeps [locker] on its stack. *)
Definition leave_scope {A : Type} (t : tid) (locker : unique_lock)
  (r : result A) : result A :=
  match r with
  | Ret a w => (unique_lock_dtor t locker ;; ret a) w
  | Throw e w => (unique_lock_dtor t locker ;; throw e) w
  | Suspend k w => Suspend (KScope locker k) w
  | Stuck s => Stuck s
  end.

(** [auto locker = get_lock(); return body();] *)
Definition with_get_lock {A : Type} (t : tid) (body : M A) : M A := fun w =>
  match get_lock t w with
  | Ret locker w1 => leave_scope t locker (body w1)
  | Throw e w1 => Throw e w1
  | Suspend k w1 => Suspend k w1
  | Stuck s => Stuck s
  end.

(** *** The [_impl] member functions: "assume the queue is already locked" *)

Definition empty_impl : M bool := fun w => Ret (q_empty (q (bq w))) w.

Definition push_impl (item : T) : M unit :=
  wasEmpty <- empty_impl ;;
  modify (fun w => set_q (q_push item (q (bq w))) w) ;;
  if wasEmpty then cv_notify_one else ret tt.

(** The overload taking [T&&]. *)
Definition push_impl_move (item : T) : M unit :=
  wasEmpty <- empty_impl ;;
  modify (fun w => set_q (q_push item (q (bq w))) w) ;;
  if wasEmpty then cv_notify_one else ret tt.

(** [q.front()] *)
Definition q_front_call : M T := fun w =>
  match q_front (q (bq w)) with
  | Some x => Ret x w
  | None => Stuck Undefined
  end.

(** [q.pop()] *)
Definition q_pop_call : M unit := fun w =>
  match q_pop (q (bq w)) with
  | Some c => Ret tt (set_q c w)
  | None => Stuck Undefined
  end.

Definition try_pop_impl : M T :=
  e <- empty_impl ;;
  if e then throw out_of_range
  else
    temp <- q_front_call ;;
    q_pop_call ;;
    ret temp.

(** [cv.wait(locker, pred)] with [pred = !empty_impl()], i.e.
    [while (!pred()) cv.wait(locker);].  One waiting round unlocks the queue
    through [locker] and blocks; the thread continues at [KWait]. *)
Definition cv_wait (t : tid) : M unit :=
  e <- empty_impl ;;
  if e then
    unlock t ;;
    modify (fun w => set_cv (cv (bq w) ++ [t]) w) ;;
    modify (log (EvWait t)) ;;
    (fun w => Suspend KWait w)
  else ret tt.

(** [locker] adopts the lock and is released again, neither touches the
    state. *)
Definition pop_impl (t : tid) : M T :=
  cv_wait t ;;
  try_pop_impl.

(** [while (!empty_impl()) pop_impl();] *)
Fixpoint clear_impl (fuel : nat) (t : tid) : M unit := fun w =>
  match empty_impl w with
  | Ret true w1 => Ret tt w1
  | Ret false w1 =>
      match fuel with
      | O => Stuck OutOfFuel
      | S fuel' =>
          match pop_impl t w1 with
          | Ret _ w2 => clear_impl fuel' t w2
          | Throw e w2 => Throw e w2
          | Suspend k w2 => Suspend (KClear fuel' k) w2
          | Stuck s => Stuck s
          end
      end
  | Throw e w1 => Throw e w1
  | Suspend k w1 => Suspend k w1
  | Stuck s => Stuck s
  end.

(** *** The public data operations *)

Definition push (t : tid) (item : T) : M unit :=
  with_get_lock t (push_impl item).

Definition push_move (t : tid) (item : T) : M unit :=
  with_get_lock t (push_impl_move item).

Definition pop (t : tid) : M T :=
  with_get_lock t (pop_impl t).

Definition try_pop (t : tid) : M T :=
  with_get_lock t try_pop_impl.

Definition clear (fuel : nat) (t : tid) : M unit :=
  with_get_lock t (clear_impl fuel t).

Definition empty (t : tid) : M bool :=
  with_get_lock t empty_impl.

(** *** Waking up *)

(** What a member function hands back to its caller. *)
Inductive retval : Type :=
| VItem (x : T)
| VBool (b : bool)
| VUnit.

(** A thread unblocked inside [cv.wait] re-locks the queue through the
    adopted lock, re-checks the predicate (possibly blocking again), and
    unwinds its stack: the rest of [pop_impl], then of the callers. *)
Fixpoint resume (t : tid) (k : frame) : M retval :=
  match k with
  | KWait =>
      lock t ;;
      x <- pop_impl t ;;
      ret (VItem x)
  | KClear fuel k' => fun w =>
      match resume t k' w with
      | Ret _ w1 => (clear_impl fuel t ;; ret VUnit) w1
      | Throw e w1 => Throw e w1
      | Suspend k'' w1 => Suspend (KClear fuel k'') w1
      | Stuck s => Stuck s
      end
  | KScope locker k' => fun w => leave_scope t locker (resume t k' w)
  end.

(** *** Move construction

    [BlockingQueue(BlockingQueue&& other) noexcept]: the new object starts
    with [owningThread(std::thread::id())] and default members, takes
    [other]'s lock through [other.get_lock()] and executes
    [q = std::move(other.q)].  The standard leaves the content of a
    moved-from container open; [moved_from] says what stays in [other.q].
    The computation runs on [other] and returns the new object. *)
Definition BlockingQueue_move (t : tid) (moved_from : Q -> Q) : M world :=
  with_get_lock t
    (fun other =>
       Ret {| bq := {| q := q (bq other); m := None; cv := [];
                       owningThread := no_thread |};
              trace := [] |}
           (set_q (moved_from (q (bq other))) other)).

(** ** Threads and schedules

    A thread either calls a member function, or is suspended in [cv.wait]
    with a saved stack.  A suspended thread that is still blocked may be
    unblocked at any time (spurious wake-up); once unblocked it resumes when
    it can re-lock the queue. *)

Inductive call : Type :=
| CPush (item : T)
| CPushMove (item : T)
| CPop
| CTryPop
| CClear (fuel : nat)
| CEmpty
| CLock
| CTryLock (spurious : bool)
| CUnlock
| COwnsLock.

Definition exec (t : tid) (c : call) : M retval :=
  match c with
  | CPush item => push t item ;; ret VUnit
  | CPushMove item => push_move t item ;; ret VUnit
  | CPop => x <- pop t ;; ret (VItem x)
  | CTryPop => x <- try_pop t ;; ret (VItem x)
  | CClear fuel => clear fuel t ;; ret VUnit
  | CEmpty => b <- empty t ;; ret (VBool b)
  | CLock => lock t ;; ret VUnit
  | CTryLock spurious => b <- try_lock t spurious ;; ret (VBool b)
  | CUnlock => unlock t ;; ret VUnit
  | COwnsLock => fun w => Ret (VBool (owns_lock t w)) w
  end.

Record system : Type := {
  sys_world : world;
  suspended : list (tid * frame)   (* threads inside [cv.wait], with their stacks *)
}.

Definition system_new : system :=
  {| sys_world := BlockingQueue_new; suspended := [] |}.

Fixpoint find_frame (t : tid) (l : list (tid * frame)) : option frame :=
  match l with
  | [] => None
  | (u, k) :: r => if Nat.eqb u t then Some k else find_frame t r
  end.

Fixpoint drop_frame (t : tid) (l : list (tid * frame)) : list (tid * frame) :=
  match l with
  | [] => []
  | (u, k) :: r => if Nat.eqb u t then drop_frame t r else (u, k) :: drop_frame t r
  end.

Inductive action : Type :=
| ACall (c : call)   (* a running thread calls a member function *)
| AWake              (* a blocked thread is unblocked without a notification *)
| AResume.           (* an unblocked thread continues inside [cv.wait] *)

Inductive outcome : Type :=
| OReturn (v : retval)
| OThrow (e : exception)
| OSuspend
| OWake.

Definition settle (t : tid) (r : result retval) (susp : list (tid * frame))
  : option (outcome * system) :=
  match r with
  | Ret v w => Some (OReturn v, {| sys_world := w; suspended := susp |})
  | Throw e w => Some (OThrow e, {| sys_world := w; suspended := susp |})
  | Suspend k w => Some (OSuspend, {| sys_world := w; suspended := (t, k) :: susp |})
  | Stuck _ => None
  end.

Definition is_blocked (t : tid) (w : world) : bool :=
  existsb (Nat.eqb t) (cv (bq w)).

(** One step of thread [t]; [None] when [t] cannot take that step now. *)
Definition sys_step (t : tid) (a : action) (S : system)
  : option (outcome * system) :=
  match a, find_frame t (suspended S) with
  | ACall c, None => settle t (exec t c (sys_world S)) (suspended S)
  | AWake, Some _ =>
      if is_blocked t (sys_world S) then
        Some (OWake,
              {| sys_world := set_cv (remove Nat.eq_dec t (cv (bq (sys_world S))))
                                     (sys_world S);
                 suspended := suspended S |})
      else None
  | AResume, Some k =>
      if is_blocked t (sys_world S) then None
      else settle t (resume t k (sys_world S)) (drop_frame t (suspended S))
  | _, _ => None
  end.

Definition observation : Type := tid * action * outcome.

(** Run a schedule; the history lists what each step returned, oldest
    first. *)
Fixpoint run (sched : list (tid * action)) (S : system)
  : option (list observation * system) :=
  match sched with
  | [] => Some ([], S)
  | (t, a) :: rest =>
      match sys_step t a S with
      | None => None
      | Some (o, S') =>
          match run rest S' with
          | None => None
          | Some (h, S'') => Some ((t, a, o) :: h, S'')
          end
      end
  end.

(** Items whose [push] returned, in the order the pushes took effect. *)
Definition pushed_item (ob : observation) : list T :=
  match ob with
  | (_, ACall (CPush x), OReturn _) => [x]
  | (_, ACall (CPushMove x), OReturn _) => [x]
  | _ => []
  end.

(** Items handed to a caller of [pop] or [try_pop], in the order of the
    removals. *)
Definition popped_item (ob : observation) : list T :=
  match ob with
  | (_, _, OReturn (VItem x)) => [x]
  | _ => []
  end.

Definition pushed (h : list observation) : list T := flat_map pushed_item h.
Definition popped (h : list observation) : list T := flat_map popped_item h.

(** Schedules of producers and consumers: no [clear]. *)
Definition is_clear (a : action) : bool :=
  match a with
  | ACall (CClear _) => true
  | _ => false
  end.

Definition no_clear (sched : list (tid * action)) : bool :=
  forallb (fun ta => negb (is_clear (snd ta))) sched.

(** ** The owner register as the specification describes it

    States Unowned and OwnedBy(T); lock() and a successful try_lock() lead
    from Unowned to OwnedBy(caller), unlock() leads from OwnedBy(caller) to
    Unowned; nothing else moves the register. *)
Inductive owner_state : Type :=
| Unowned
| OwnedBy (t : tid).

Definition owner_transition (s : owner_state) (e : event) : option owner_state :=
  match e, s with
  | EvLock t, Unowned => Some (OwnedBy t)
  | EvTryLock t, Unowned => Some (OwnedBy t)
  | EvUnlock t, OwnedBy u => if Nat.eqb t u then Some Unowned else None
  | EvWait _, _ => Some s
  | EvNotifyOne _, _ => Some s
  | _, _ => None
  end.

(** The state reached from Unowned along a trace (newest event first). *)
Fixpoint owner_after (tr : list event) : option owner_state :=
  match tr with
  | [] => Some Unowned
  | e :: tr' =>
      match owner_after tr' with
      | Some s => owner_transition s e
      | None => None
      end
  end.

(** The register's value as a state of that machine. *)
Definition register_state (r : thread_id) : owner_state :=
  match r with
  | None => Unowned
  | Some t => OwnedBy t
  end.

(** How often [cv.notify_one()] was called. *)
Definition notify_count (tr : list event) : nat :=
  length (filter (fun e => match e with EvNotifyOne _ => true | _ => false end) tr).

(** Lock and unlock events of a trace. *)
Definition is_lock_event (e : event) : bool :=
  match e with
  | EvLock _ | EvTryLock _ | EvUnlock _ => true
  | _ => false
  end.

Definition lock_events (tr : list event) : list event := filter is_lock_event tr.

(** ** Invariants *)

(** The register names the holder of the mutex, and the trace of lock events
    is a path of the owner state machine ending in the register's state. *)
Definition lock_ok (w : world) : Prop :=
  owningThread (bq w) = m (bq w).

Definition good (w : world) : Prop :=
  lock_ok w /\
  owner_after (trace w) = Some (register_state (owningThread (bq w))).

(** A body that runs with the lock held by [t] and keeps it on return. *)
Definition keeps_lock {A : Type} (t : tid) (body : M A) : Prop :=
  forall w, good w -> m (bq w) = Some t ->
    match body w with
    | Ret _ w' => good w' /\ m (bq w') = Some t
    | Throw _ w' => good w' /\ m (bq w') = Some t
    | Suspend _ w' => good w'
    | Stuck _ => True
    end.

(** The mutex does not keep [t] from entering a member function. *)
Definition can_enter (t : tid) (w : world) : Prop :=
  m (bq w) = None \/ m (bq w) = Some t.

(** The world right after [t] locked the queue. *)
Definition locked_by (t : tid) (w : world) : world :=
  log (EvLock t) (set_owningThread (this_thread_get_id t) (set_m (Some t) w)).

(** The world right after [t] unlocked the queue. *)
Definition unlocked_by (t : tid) (w : world) : world :=
  log (EvUnlock t) (set_m None (set_owningThread no_thread w)).

(** The stack of a thread suspended in [pop()]. *)
Definition pop_frame (k : frame) : Prop :=
  exists locker, k = KScope locker KWait.

Definition pop_frames (l : list (tid * frame)) : Prop :=
  Forall (fun tk => pop_frame (snd tk)) l.

(** What one step does to the storage, as seen from its observation. *)
Inductive storage_step (c c' : Q) (ob : observation) : Prop :=
| storage_pushed (x : T) :
    pushed_item ob = [x] -> popped_item ob = [] -> c' = q_push x c ->
    storage_step c c' ob
| storage_popped (x : T) :
    pushed_item ob = [] -> popped_item ob = [x] ->
    q_empty c = false -> q_front c = Some x -> q_pop c = Some c' ->
    storage_step c c' ob
| storage_kept :
    pushed_item ob = [] -> popped_item ob = [] -> c' = c ->
    storage_step c c' ob.

(** The effect of [push_impl] on the condition variable: one call of
    [notify_one], unblocking one of the blocked threads if there is any,
    when the storage was empty; nothing otherwise. *)
Definition wakes_one_if_was_empty (w w' : world) : Prop :=
  if q_empty (q (bq w)) then
    exists woken,
      trace w' = EvNotifyOne woken :: trace w /\
      match woken with
      | Some u => Permutation (cv (bq w)) (u :: cv (bq w'))
      | None => cv (bq w) = [] /\ cv (bq w') = []
      end
  else trace w' = trace w /\ cv (bq w') = cv (bq w).

(** The public data operations. *)
Definition is_data_op (c : call) : bool :=
  match c with
  | CPush _ | CPushMove _ | CPop | CTryPop | CClear _ | CEmpty => true
  | CLock | CTryLock _ | CUnlock | COwnsLock => false
  end.

(** The threads asleep in [pop()]: each has the stack of a [pop()] and does
    not hold the mutex; every thread blocked on [cv] is one of them, once. *)
Definition waiters_ok (S : system) : Prop :=
  pop_frames (suspended S) /\
  (forall t k, find_frame t (suspended S) = Some k ->
     m (bq (sys_world S)) <> Some t) /\
  (forall t, In t (cv (bq (sys_world S))) ->
     find_frame t (suspended S) <> None) /\
  NoDup (cv (bq (sys_world S))).

(** Calls of [push], in either overload. *)
Definition is_push (a : action) : bool :=
  match a with
  | ACall (CPush _) | ACall (CPushMove _) => true
  | _ => false
  end.

(** Schedules in which nothing is pushed and nothing is cleared. *)
Definition only_consumers (sched : list (tid * action)) : bool :=
  forallb (fun ta => negb (is_push (snd ta)) && negb (is_clear (snd ta))) sched.

(** The storage each [clear()] of a schedule found when it ran, oldest
    first: what those calls dropped. *)
Fixpoint cleared_storage (sched : list (tid * action)) (S : system) : list Q :=
  match sched with
  | [] => []
  | (t, a) :: rest =>
      match sys_step t a S with
      | None => []
      | Some (_, S') =>
          (if is_clear a then [q (bq (sys_world S))] else [])
          ++ cleared_storage rest S'
      end
  end.

(** Schedules that consist of pushes. *)
Definition only_pushes (sched : list (tid * action)) : bool :=
  forallb (fun ta => is_push (snd ta)) sched.

(** ** Symbolic evaluation of member functions *)

Ltac bq_unfold :=
  unfold exec, push, push_move, pop, try_pop, clear, empty,
    with_get_lock, leave_scope, get_lock, unique_lock_dtor,
    pop_impl, cv_wait, try_pop_impl, push_impl, push_impl_move, empty_impl,
    q_front_call, q_pop_call, cv_notify_one,
    lock, try_lock, unlock, owns_lock, m_lock, m_try_lock, m_unlock,
    bind, ret, throw, modify, set_q, set_m, set_cv, set_owningThread, log,
    this_thread_get_id, no_thread, thread_id_eqb in *.

Ltac bq_case :=
  match goal with
  | |- context [match ?x with _ => _ end] =>
      match type of x with
      | bool => destruct x eqn:?
      | option _ => destruct x eqn:?
      | (_ * _)%type => destruct x eqn:?
      | unique_lock => destruct x eqn:?
      | list _ => destruct x eqn:?
      end
  | |- context [if ?x then _ else _] => destruct x eqn:?
  end.

Ltac bq_eval :=
  bq_unfold; simpl in *; rewrite ?Nat.eqb_refl;
  repeat (bq_case; simpl in *; rewrite ?Nat.eqb_refl).

Ltac bq_storage :=
  first
    [ solve [eapply storage_kept; simpl; eauto]
    | solve [eapply storage_pushed; simpl; eauto]
    | solve [eapply storage_popped; simpl; eauto; congruence] ].

(** ** Basic facts *)

Lemma thread_id_eqb_eq a b : thread_id_eqb a b = true <-> a = b.
Proof.
  destruct a as [x|], b as [y|]; simpl; try (split; congruence).
  rewrite Nat.eqb_eq. split; congruence.
Qed.

Lemma owns_lock_iff (t : tid) (w : world) :
  owns_lock t w = true <-> owningThread (bq w) = this_thread_get_id t.
Proof. unfold owns_lock. apply thread_id_eqb_eq. Qed.

Lemma owns_lock_false_iff (t : tid) (w : world) :
  owns_lock t w = false <-> owningThread (bq w) <> this_thread_get_id t.
Proof.
  rewrite <- owns_lock_iff. destruct (owns_lock t w); split; congruence.
Qed.

Lemma pick_out_perm (i : nat) (x : tid) (r : list tid) :
  Permutation (x :: r) (fst (pick_out i x r) :: snd (pick_out i x r)).
Proof.
  revert x r. induction i as [|i IH]; intros x r; simpl; auto.
  destruct r as [|y r']; simpl; auto.
  specialize (IH y r'). destruct (pick_out i y r') as [z rest]. simpl in *.
  rewrite IH. apply perm_swap.
Qed.

Lemma set_q_id (w : world) : set_q (q (bq w)) w = w.
Proof. destruct w as [[c mu ws own] tr]. reflexivity. Qed.

Lemma set_q_set_q (c c' : Q) (w : world) : set_q c (set_q c' w) = set_q c w.
Proof. reflexivity. Qed.

(** Past a non-empty check, [pop_impl] does not wait. *)
Lemma pop_impl_nonempty (t : tid) (w : world) :
  q_empty (q (bq w)) = false ->
  pop_impl t w =
  match q_front (q (bq w)), q_pop (q (bq w)) with
  | Some x, Some c' => Ret x (set_q c' w)
  | _, _ => Stuck Undefined
  end.
Proof.
  intros E. unfold pop_impl, cv_wait, try_pop_impl, empty_impl, bind, ret,
    q_front_call, q_pop_call.
  rewrite E. simpl. rewrite E.
  destruct (q_front (q (bq w))); auto.
  destruct (q_pop (q (bq w))); auto.
Qed.

(** On an empty queue [pop_impl] unlocks and blocks. *)
Lemma pop_impl_empty (t : tid) (w : world) :
  q_empty (q (bq w)) = true ->
  pop_impl t w =
  match m (bq w) with
  | Some u =>
      if Nat.eqb u t then
        Suspend KWait
          (log (EvWait t)
             (set_cv (cv (bq w) ++ [t]) (unlocked_by t w)))
      else Stuck Undefined
  | None => Stuck Undefined
  end.
Proof.
  destruct w as [[c mu ws own] tr]. simpl. intros E.
  unfold unlocked_by. bq_eval; try reflexivity; congruence.
Qed.

(** [cv.wait] returns at once when the storage is not empty, and only then. *)
Lemma cv_wait_ret (t : tid) (w w1 : world) :
  cv_wait t w = Ret tt w1 -> w1 = w /\ q_empty (q (bq w)) = false.
Proof.
  destruct w as [[c mu ws own] tr]. unfold cv_wait, empty_impl, bind. simpl.
  destruct (q_empty c).
  - unfold unlock, bind, modify, m_unlock. simpl.
    destruct mu as [u|]; [|discriminate].
    destruct (Nat.eqb u t); discriminate.
  - unfold ret. intros [= <-]. auto.
Qed.

(** [clear_impl] neither throws nor suspends, and touches the storage only. *)
Lemma clear_impl_spec (fuel : nat) (t : tid) (w : world) :
  match clear_impl fuel t w with
  | Ret _ w' => exists c, w' = set_q c w /\ q_empty c = true
  | Throw _ _ => False
  | Suspend _ _ => False
  | Stuck _ => True
  end.
Proof.
  revert w. induction fuel as [|fuel IH]; intros w; simpl;
    unfold empty_impl; destruct (q_empty (q (bq w))) eqn:E; auto.
  - exists (q (bq w)). rewrite set_q_id. auto.
  - exists (q (bq w)). rewrite set_q_id. auto.
  - rewrite pop_impl_nonempty by exact E.
    destruct (q_front (q (bq w))); auto.
    destruct (q_pop (q (bq w))) as [c'|]; auto.
    specialize (IH (set_q c' w)).
    destruct (clear_impl fuel t (set_q c' w)); auto.
Qed.

(** How [get_lock] and the destructor of its lock frame a body. *)
Lemma with_get_lock_eq {A : Type} (t : tid) (body : M A) (w : world) :
  with_get_lock t body w =
  if owns_lock t w then leave_scope t {| owns := false |} (body w)
  else match m (bq w) with
       | None => leave_scope t {| owns := true |} (body (locked_by t w))
       | Some u => if Nat.eqb u t then Stuck Undefined else Stuck Blocked
       end.
Proof.
  unfold with_get_lock, get_lock, locked_by.
  destruct (owns_lock t w); auto.
  unfold lock, m_lock, bind, modify, ret.
  destruct (m (bq w)) as [u|]; auto.
  destruct (Nat.eqb u t); auto.
Qed.

Lemma exec_storage (t : tid) (c : call) (w : world) :
  is_clear (ACall c) = false ->
  match exec t c w with
  | Ret v w' => storage_step (q (bq w)) (q (bq w')) (t, ACall c, OReturn v)
  | Throw e w' => q (bq w') = q (bq w) /\ c = CTryPop /\ q_empty (q (bq w)) = true
  | Suspend k w' => q (bq w') = q (bq w) /\ pop_frame k
  | Stuck _ => True
  end.
Proof.
  destruct w as [[s mu ws own] tr].
  destruct c; simpl; try discriminate; intros _; unfold pop_frame;
    bq_eval; auto; try bq_storage; try congruence; eauto.
Qed.

Lemma resume_storage (t : tid) (k : frame) (w : world) :
  pop_frame k ->
  match resume t k w with
  | Ret v w' => storage_step (q (bq w)) (q (bq w')) (t, AResume, OReturn v)
  | Throw e w' => False
  | Suspend k' w' => q (bq w') = q (bq w) /\ k' = k
  | Stuck _ => True
  end.
Proof.
  intros [locker ->]. destruct w as [[s mu ws own] tr]. simpl.
  bq_eval; auto; try bq_storage; try congruence.
Qed.

(** ** The lock invariant is kept by every member function *)

Ltac bq_subst :=
  repeat match goal with
  | E : Nat.eqb _ _ = true |- _ => apply Nat.eqb_eq in E; subst
  | E : Some _ = Some _ |- _ => injection E as E; subst
  end.

Ltac bq_good Htr :=
  bq_eval; bq_subst; unfold good, lock_ok; simpl;
  rewrite ?Htr; simpl; rewrite ?Nat.eqb_refl; auto; try congruence.

Lemma good_new : good BlockingQueue_new.
Proof. split; reflexivity. Qed.

Lemma good_set_q (c : Q) (w : world) : good w -> good (set_q c w).
Proof. intros G. exact G. Qed.

Lemma leave_scope_good {A : Type} (t : tid) (locker : unique_lock)
  (r : result A) :
  match r with
  | Ret _ w | Throw _ w | Suspend _ w => good w
  | Stuck _ => True
  end ->
  match leave_scope t locker r with
  | Ret _ w | Throw _ w | Suspend _ w => good w
  | Stuck _ => True
  end.
Proof.
  destruct locker as [o]. destruct r as [a w|e w|k w|s]; simpl; auto;
    destruct w as [[c mu ws own] tr]; intros [Hl Htr];
    unfold lock_ok in Hl; simpl in Hl, Htr; subst own;
    destruct o; bq_good Htr.
Qed.

Lemma with_get_lock_good {A : Type} (t : tid) (body : M A) (w : world) :
  keeps_lock t body -> good w ->
  match with_get_lock t body w with
  | Ret _ w' | Throw _ w' | Suspend _ w' => good w'
  | Stuck _ => True
  end.
Proof.
  intros Hb G. rewrite with_get_lock_eq.
  destruct (owns_lock t w) eqn:Ho.
  - apply leave_scope_good. apply owns_lock_iff in Ho.
    specialize (Hb w G). destruct G as [Hl _]. unfold lock_ok in Hl.
    rewrite <- Hl, Ho in Hb. specialize (Hb eq_refl).
    destruct (body w); tauto.
  - destruct (m (bq w)) as [u|] eqn:Hm.
    + destruct (Nat.eqb u t); exact I.
    + apply leave_scope_good.
      assert (G1 : good (locked_by t w)).
      { destruct G as [Hl Htr]. unfold lock_ok in Hl. rewrite Hm in Hl.
        split; [reflexivity|]. simpl. rewrite Htr, Hl. reflexivity. }
      specialize (Hb (locked_by t w) G1 eq_refl).
      destruct (body (locked_by t w)); tauto.
Qed.

Lemma keeps_lock_push_impl (t : tid) (item : T) : keeps_lock t (push_impl item).
Proof.
  intros [[c mu ws own] tr] [Hl Htr] Hm. unfold lock_ok in Hl.
  simpl in Hl, Htr, Hm. subst own mu. bq_good Htr.
Qed.

Lemma keeps_lock_push_impl_move (t : tid) (item : T) :
  keeps_lock t (push_impl_move item).
Proof. exact (@keeps_lock_push_impl t item). Qed.

Lemma keeps_lock_try_pop_impl (t : tid) : keeps_lock t try_pop_impl.
Proof.
  intros [[c mu ws own] tr] [Hl Htr] Hm. unfold lock_ok in Hl.
  simpl in Hl, Htr, Hm. subst own mu. bq_good Htr.
Qed.

Lemma keeps_lock_pop_impl (t : tid) : keeps_lock t (pop_impl t).
Proof.
  intros [[c mu ws own] tr] [Hl Htr] Hm. unfold lock_ok in Hl.
  simpl in Hl, Htr, Hm. subst own mu. bq_good Htr.
Qed.

Lemma keeps_lock_empty_impl (t : tid) : keeps_lock t empty_impl.
Proof.
  intros [[c mu ws own] tr] [Hl Htr] Hm. unfold lock_ok in Hl.
  simpl in Hl, Htr, Hm. subst own mu. bq_good Htr.
Qed.

Lemma keeps_lock_clear_impl (fuel : nat) (t : tid) :
  keeps_lock t (clear_impl fuel t).
Proof.
  intros w G Hm. pose proof (clear_impl_spec fuel t w) as Hc.
  destruct (clear_impl fuel t w); try tauto.
  destruct Hc as [c [-> _]]. split; [apply good_set_q; exact G | exact Hm].
Qed.

Lemma bind_ret_good {A : Type} (c : M A) (f : A -> retval) (w : world) :
  match c w with
  | Ret _ w' | Throw _ w' | Suspend _ w' => good w'
  | Stuck _ => True
  end ->
  match (x <- c ;; ret (f x)) w with
  | Ret _ w' | Throw _ w' | Suspend _ w' => good w'
  | Stuck _ => True
  end.
Proof. unfold bind, ret. destruct (c w); auto. Qed.

Lemma exec_good (t : tid) (c : call) (w : world) :
  good w ->
  match exec t c w with
  | Ret _ w' | Throw _ w' | Suspend _ w' => good w'
  | Stuck _ => True
  end.
Proof.
  intros G. destruct c; simpl.
  - apply (bind_ret_good (push t item) (fun _ => VUnit)).
    apply with_get_lock_good; auto using keeps_lock_push_impl.
  - apply (bind_ret_good (push_move t item) (fun _ => VUnit)).
    apply with_get_lock_good; auto using keeps_lock_push_impl_move.
  - apply (bind_ret_good (pop t) VItem).
    apply with_get_lock_good; auto using keeps_lock_pop_impl.
  - apply (bind_ret_good (try_pop t) VItem).
    apply with_get_lock_good; auto using keeps_lock_try_pop_impl.
  - apply (bind_ret_good (clear fuel t) (fun _ => VUnit)).
    apply with_get_lock_good; auto using keeps_lock_clear_impl.
  - apply (bind_ret_good (empty t) VBool).
    apply with_get_lock_good; auto using keeps_lock_empty_impl.
  - destruct w as [[c mu ws own] tr]. destruct G as [Hl Htr].
    unfold lock_ok in Hl. simpl in Hl, Htr. subst own. bq_good Htr.
  - destruct w as [[c mu ws own] tr]. destruct G as [Hl Htr].
    unfold lock_ok in Hl. simpl in Hl, Htr. subst own. bq_good Htr.
  - destruct w as [[c mu ws own] tr]. destruct G as [Hl Htr].
    unfold lock_ok in Hl. simpl in Hl, Htr. subst own. bq_good Htr.
  - exact G.
Qed.

Lemma resume_good (t : tid) (k : frame) (w : world) :
  pop_frame k -> good w ->
  match resume t k w with
  | Ret _ w' | Throw _ w' | Suspend _ w' => good w'
  | Stuck _ => True
  end.
Proof.
  intros [locker ->] G. simpl. apply leave_scope_good.
  destruct w as [[c mu ws own] tr]. destruct G as [Hl Htr].
  unfold lock_ok in Hl. simpl in Hl, Htr. subst own. bq_good Htr.
Qed.

(** ** Invariants of schedules *)

Lemma find_frame_pop_frame (t : tid) (l : list (tid * frame)) (k : frame) :
  pop_frames l -> find_frame t l = Some k -> pop_frame k.
Proof.
  unfold pop_frames. induction l as [|[u k'] l IH]; simpl; [discriminate|].
  intros Hl. inversion Hl as [|? ? Hk Hr]; subst.
  destruct (Nat.eqb u t); [intros [= <-]; exact Hk | auto].
Qed.

Lemma drop_frame_pop_frames (t : tid) (l : list (tid * frame)) :
  pop_frames l -> pop_frames (drop_frame t l).
Proof.
  unfold pop_frames. induction l as [|[u k'] l IH]; simpl; auto.
  intros Hl. inversion Hl as [|? ? Hk Hr]; subst.
  destruct (Nat.eqb u t); auto.
Qed.

(** Only [pop] suspends. *)
Lemma exec_suspend_frame (t : tid) (c : call) (w w' : world) (k : frame) :
  exec t c w = Suspend k w' -> pop_frame k.
Proof.
  destruct (is_clear (ACall c)) eqn:Hc.
  - destruct c; try discriminate. simpl. unfold clear, bind.
    rewrite with_get_lock_eq.
    pose proof (clear_impl_spec fuel t w) as H1.
    pose proof (clear_impl_spec fuel t (locked_by t w)) as H2.
    destruct (owns_lock t w).
    + destruct (clear_impl fuel t w); simpl; try tauto; discriminate.
    + destruct (m (bq w)) as [u|].
      * destruct (Nat.eqb u t); discriminate.
      * destruct (clear_impl fuel t (locked_by t w)) as [a w1| | |];
          try tauto; try discriminate.
        destruct w1 as [[c1 mu1 ws1 own1] tr1].
        bq_eval; discriminate.
  - pose proof (@exec_storage t c w Hc) as Hs. intros E. rewrite E in Hs.
    tauto.
Qed.

Lemma settle_inv (t : tid) (r : result retval) (susp : list (tid * frame))
  (o : outcome) (S' : system) :
  settle t r susp = Some (o, S') ->
  (exists v, r = Ret v (sys_world S') /\ o = OReturn v /\ suspended S' = susp) \/
  (exists e, r = Throw e (sys_world S') /\ o = OThrow e /\ suspended S' = susp) \/
  (exists k, r = Suspend k (sys_world S') /\ o = OSuspend /\
             suspended S' = (t, k) :: susp).
Proof.
  destruct r as [v w|e w|k w|s]; simpl; intros E; inversion E; subst; simpl;
    eauto 7.
Qed.

Lemma sys_step_good (t : tid) (a : action) (S S' : system) (o : outcome) :
  good (sys_world S) -> pop_frames (suspended S) ->
  sys_step t a S = Some (o, S') ->
  good (sys_world S') /\ pop_frames (suspended S').
Proof.
  intros G F. unfold sys_step.
  destruct a as [c| |]; destruct (find_frame t (suspended S)) as [k|] eqn:Hf;
    try discriminate.
  - intros E. apply settle_inv in E.
    pose proof (@exec_good t c (sys_world S) G) as Hg.
    destruct E as [(v & E & _ & Es)|[(e & E & _ & Es)|(k & E & _ & Es)]];
      rewrite E in Hg; rewrite Es; split; auto.
    constructor; auto. simpl. eapply exec_suspend_frame; eauto.
  - destruct (is_blocked t (sys_world S)); [|discriminate].
    intros [= <- <-]. simpl. split; auto.
  - destruct (is_blocked t (sys_world S)); [discriminate|].
    intros E. apply settle_inv in E.
    pose proof (@find_frame_pop_frame t _ k F Hf) as Hk.
    pose proof (@resume_good t k (sys_world S) Hk G) as Hg.
    pose proof (@resume_storage t k (sys_world S) Hk) as Hs.
    pose proof (@drop_frame_pop_frames t _ F) as Fd.
    destruct E as [(v & E & _ & Es)|[(e & E & _ & Es)|(k' & E & _ & Es)]];
      rewrite E in Hg, Hs; rewrite Es; split; auto.
    constructor; auto. simpl. destruct Hs as [_ ->]. exact Hk.
Qed.

Lemma run_good (sched : list (tid * action)) (S S' : system)
  (h : list observation) :
  good (sys_world S) -> pop_frames (suspended S) ->
  run sched S = Some (h, S') ->
  good (sys_world S') /\ pop_frames (suspended S').
Proof.
  revert S h. induction sched as [|[t a] rest IH]; simpl; intros S h G F.
  - intros [= _ <-]. auto.
  - destruct (sys_step t a S) as [[o S1]|] eqn:E1; [|discriminate].
    destruct (run rest S1) as [[h1 S2]|] eqn:E2; [|discriminate].
    intros [= _ <-].
    destruct (@sys_step_good t a S S1 o G F E1) as [G1 F1]. eauto.
Qed.

Lemma run_new_good (sched : list (tid * action)) (S : system)
  (h : list observation) :
  run sched system_new = Some (h, S) ->
  good (sys_world S) /\ pop_frames (suspended S).
Proof. apply run_good; [apply good_new | constructor]. Qed.

(** What a step does to the storage. *)
Lemma sys_step_storage (t : tid) (a : action) (S S' : system) (o : outcome) :
  pop_frames (suspended S) -> is_clear a = false ->
  sys_step t a S = Some (o, S') ->
  storage_step (q (bq (sys_world S))) (q (bq (sys_world S'))) (t, a, o).
Proof.
  intros F Hc. unfold sys_step.
  destruct a as [c| |]; destruct (find_frame t (suspended S)) as [k|] eqn:Hf;
    try discriminate.
  - intros E. apply settle_inv in E.
    pose proof (@exec_storage t c (sys_world S) Hc) as Hs.
    destruct E as [(v & E & -> & _)|[(e & E & -> & _)|(k & E & -> & _)]];
      rewrite E in Hs; auto.
    + destruct Hs as [Hq _]. apply storage_kept; auto.
      destruct c; reflexivity.
    + destruct Hs as [Hq _]. apply storage_kept; auto.
      destruct c; reflexivity.
  - destruct (is_blocked t (sys_world S)); [|discriminate].
    intros [= <- <-]. apply storage_kept; reflexivity.
  - destruct (is_blocked t (sys_world S)); [discriminate|].
    intros E. apply settle_inv in E.
    pose proof (@find_frame_pop_frame t _ k F Hf) as Hk.
    pose proof (@resume_storage t k (sys_world S) Hk) as Hs.
    destruct E as [(v & E & -> & _)|[(e & E & -> & _)|(k' & E & -> & _)]];
      rewrite E in Hs; auto; try tauto.
    destruct Hs as [Hq _]. apply storage_kept; auto.
Qed.

Lemma sys_step_pop_frames (t : tid) (a : action) (S S' : system) (o : outcome) :
  pop_frames (suspended S) ->
  sys_step t a S = Some (o, S') ->
  pop_frames (suspended S').
Proof.
  intros F. unfold sys_step.
  destruct a as [c| |]; destruct (find_frame t (suspended S)) as [k|] eqn:Hf;
    try discriminate.
  - intros E. apply settle_inv in E.
    destruct E as [(v & E & _ & Es)|[(e & E & _ & Es)|(k & E & _ & Es)]];
      rewrite Es; auto.
    constructor; auto. simpl. eapply exec_suspend_frame; eauto.
  - destruct (is_blocked t (sys_world S)); [|discriminate].
    intros [= <- <-]. exact F.
  - destruct (is_blocked t (sys_world S)); [discriminate|].
    intros E. apply settle_inv in E.
    pose proof (@find_frame_pop_frame t _ k F Hf) as Hk.
    pose proof (@resume_storage t k (sys_world S) Hk) as Hs.
    pose proof (@drop_frame_pop_frames t _ F) as Fd.
    destruct E as [(v & E & _ & Es)|[(e & E & _ & Es)|(k' & E & _ & Es)]];
      rewrite E in Hs; rewrite Es; auto.
    constructor; auto. simpl. destruct Hs as [_ ->]. exact Hk.
Qed.

Lemma no_clear_cons (t : tid) (a : action) (rest : list (tid * action)) :
  no_clear ((t, a) :: rest) = true ->
  is_clear a = false /\ no_clear rest = true.
Proof.
  unfold no_clear. simpl. rewrite andb_true_iff, negb_true_iff. auto.
Qed.

Lemma pushed_cons (ob : observation) (h : list observation) :
  pushed (ob :: h) = pushed_item ob ++ pushed h.
Proof. reflexivity. Qed.

Lemma popped_cons (ob : observation) (h : list observation) :
  popped (ob :: h) = popped_item ob ++ popped h.
Proof. reflexivity. Qed.

Section WithQueueSpec.
Context `{!QueueSpec}.

Lemma q_nonempty_items (c : Q) : q_empty c = false -> q_items c <> [].
Proof.
  intros E Hn. apply q_empty_items in Hn. congruence.
Qed.

Lemma q_nonempty_front_pop (c : Q) :
  q_empty c = false ->
  exists x c', q_front c = Some x /\ q_pop c = Some c' /\
               Permutation (q_items c) (x :: q_items c').
Proof. intros E. apply q_front_pop_items, q_nonempty_items, E. Qed.

Lemma storage_step_items (c c' : Q) (ob : observation) :
  storage_step c c' ob ->
  Permutation (pushed_item ob ++ q_items c) (popped_item ob ++ q_items c').
Proof.
  intros [x Hp Hq ->|x Hp Hq He Hf Ho|Hp Hq ->]; rewrite Hp, Hq; simpl.
  - symmetry. apply q_push_items.
  - destruct (q_nonempty_front_pop c He) as (x0 & c0 & Hf0 & Ho0 & HP).
    congruence.
  - reflexivity.
Qed.

(** Pushed items are either still stored or were handed out, once each. *)
Lemma run_conservation (sched : list (tid * action)) (S S' : system)
  (h : list observation) :
  pop_frames (suspended S) -> no_clear sched = true ->
  run sched S = Some (h, S') ->
  Permutation (pushed h ++ q_items (q (bq (sys_world S))))
              (popped h ++ q_items (q (bq (sys_world S')))).
Proof.
  revert S h. induction sched as [|[t a] rest IH]; intros S h F Hn; simpl.
  - intros [= <- <-]. reflexivity.
  - apply no_clear_cons in Hn. destruct Hn as [Ha Hn].
    destruct (sys_step t a S) as [[o S1]|] eqn:E1; [|discriminate].
    destruct (run rest S1) as [[h1 S2]|] eqn:E2; [|discriminate].
    intros [= <- <-].
    pose proof (@sys_step_pop_frames t a S S1 o F E1) as F1.
    pose proof (@sys_step_storage t a S S1 o F Ha E1) as Hs.
    apply storage_step_items in Hs.
    specialize (IH S1 h1 F1 Hn E2).
    rewrite pushed_cons, popped_cons, <- !app_assoc.
    etransitivity; [apply Permutation_app_swap_app|].
    etransitivity; [apply Permutation_app_head; exact Hs|].
    etransitivity; [apply Permutation_app_swap_app|].
    apply Permutation_app_head. exact IH.
Qed.

End WithQueueSpec.

(** ** Exceptions *)

(** Only [try_pop] throws, and only on empty storage, which it leaves alone. *)
Lemma exec_throw (t : tid) (c : call) (w w' : world) (e : exception) :
  exec t c w = Throw e w' ->
  c = CTryPop /\ q_empty (q (bq w)) = true /\ q (bq w') = q (bq w).
Proof.
  destruct (is_clear (ACall c)) eqn:Hc.
  - destruct c; try discriminate. simpl. unfold clear, bind.
    rewrite with_get_lock_eq.
    pose proof (clear_impl_spec fuel t w) as H1.
    pose proof (clear_impl_spec fuel t (locked_by t w)) as H2.
    destruct (owns_lock t w).
    + destruct (clear_impl fuel t w); simpl; try tauto; discriminate.
    + destruct (m (bq w)) as [u|].
      * destruct (Nat.eqb u t); discriminate.
      * destruct (clear_impl fuel t (locked_by t w)) as [a w1| | |];
          try tauto; try discriminate.
        destruct w1 as [[c1 mu1 ws1 own1] tr1].
        bq_eval; discriminate.
  - pose proof (@exec_storage t c w Hc) as Hs. intros E. rewrite E in Hs.
    tauto.
Qed.

Lemma leave_scope_throw {A : Type} (t : tid) (locker : unique_lock)
  (r : result A) (e : exception) (w' : world) :
  leave_scope t locker r = Throw e w' -> exists w, r = Throw e w.
Proof.
  destruct locker as [o]. destruct r as [a w|e0 w|k w|s]; simpl;
    try discriminate; destruct w as [[c mu ws own] tr]; destruct o;
    bq_eval; intros E; inversion E; subst; eauto.
Qed.

Lemma resume_no_throw (t : tid) (k : frame) (w w' : world) (e : exception) :
  resume t k w <> Throw e w'.
Proof.
  revert w w' e. induction k as [|fuel k IH|locker k IH]; intros w w' e; simpl.
  - destruct w as [[c mu ws own] tr]. bq_eval; discriminate.
  - specialize (IH w). destruct (resume t k w) as [a w1|e1 w1|k1 w1|s];
      try discriminate.
    + unfold bind, ret. pose proof (clear_impl_spec fuel t w1) as Hc.
      destruct (clear_impl fuel t w1); try tauto; discriminate.
    + intros _. exact (IH w1 e1 eq_refl).
  - intros E. apply leave_scope_throw in E. destruct E as [w1 E].
    exact (IH w w1 e E).
Qed.

(** ** The claims about single operations *)

Ltac bq_enter w Hl Hc :=
  let c := fresh "c" in
  let mu := fresh "mu" in
  let ws := fresh "ws" in
  let own := fresh "own" in
  let tr := fresh "tr" in
  destruct w as [[c mu ws own] tr];
  unfold lock_ok, can_enter in Hl, Hc; simpl in Hl, Hc; subst own;
  destruct Hc as [Hc|Hc]; subst mu.

Section Claims.
Context `{!QueueSpec}.

(** C2.  [try_pop()] throws the empty-queue error exactly when the storage
    is empty at the call; on non-empty storage it removes the front element
    and returns it; no other member function throws, neither when called
    nor when a suspended call is resumed. *)
Theorem try_pop_raises_iff_empty (t : tid) (w : world) :
  lock_ok w -> can_enter t w ->
  ((exists w', try_pop t w = Throw out_of_range w') <->
   q_empty (q (bq w)) = true) /\
  (q_empty (q (bq w)) = false ->
   exists x c' w',
     q_front (q (bq w)) = Some x /\ q_pop (q (bq w)) = Some c' /\
     try_pop t w = Ret x w' /\ q (bq w') = c') /\
  (forall c e w', exec t c w = Throw e w' -> c = CTryPop) /\
  (forall k e w', resume t k w <> Throw e w').
Proof.
  intros Hl Hc. split; [|split; [|split]].
  - split.
    + intros [w' E].
      assert (E' : exec t CTryPop w = Throw out_of_range w').
      { simpl. unfold bind. rewrite E. reflexivity. }
      apply exec_throw in E'. tauto.
    + bq_enter w Hl Hc; simpl; intros He; bq_eval; eauto; congruence.
  - intros He.
    destruct (q_nonempty_front_pop _ He) as (x & c' & Hf & Hp & _).
    exists x, c'. bq_enter w Hl Hc; simpl in *; bq_unfold; simpl;
      repeat (progress (rewrite ?Nat.eqb_refl, ?He, ?Hf, ?Hp; simpl)); eauto.
  - intros c e w' E. apply exec_throw in E. tauto.
  - intros k e w'. apply resume_no_throw.
Qed.

(** C3.  [pop()] never throws.  Once [cv.wait] lets it pass, the storage is
    not empty, so the check inside [try_pop_impl] cannot fail; [pop()] then
    removes the front element and returns it.  On empty storage the caller
    sleeps, and resuming it later behaves the same way. *)
Theorem pop_never_fails (t : tid) (w : world) :
  lock_ok w -> can_enter t w ->
  (forall e w', pop t w <> Throw e w') /\
  (forall w1, cv_wait t w = Ret tt w1 ->
     q_empty (q (bq w1)) = false /\ forall e w2, try_pop_impl w1 <> Throw e w2) /\
  (q_empty (q (bq w)) = false ->
   exists x c' w',
     q_front (q (bq w)) = Some x /\ q_pop (q (bq w)) = Some c' /\
     pop t w = Ret x w' /\ q (bq w') = c') /\
  (q_empty (q (bq w)) = true ->
   exists locker w',
     pop t w = Suspend (KScope locker KWait) w' /\ q (bq w') = q (bq w)) /\
  (forall locker, m (bq w) = None ->
     (forall e w', resume t (KScope locker KWait) w <> Throw e w') /\
     (q_empty (q (bq w)) = false ->
      exists x c' w',
        q_front (q (bq w)) = Some x /\ q_pop (q (bq w)) = Some c' /\
        resume t (KScope locker KWait) w = Ret (VItem x) w' /\
        q (bq w') = c') /\
     (q_empty (q (bq w)) = true ->
      exists w',
        resume t (KScope locker KWait) w = Suspend (KScope locker KWait) w' /\
        q (bq w') = q (bq w))).
Proof.
  intros Hl Hc. split; [|split; [|split; [|split]]].
  - intros e w' E.
    assert (E' : exec t CPop w = Throw e w').
    { simpl. unfold bind. rewrite E. reflexivity. }
    apply exec_throw in E'. destruct E' as [E' _]. discriminate.
  - intros w1 E. apply cv_wait_ret in E. destruct E as [-> He].
    split; [exact He|]. intros e w2. unfold try_pop_impl, empty_impl, bind.
    rewrite He. unfold q_front_call, q_pop_call, ret.
    destruct (q_front (q (bq w))); try discriminate.
    destruct (q_pop (q (bq w))); discriminate.
  - intros He.
    destruct (q_nonempty_front_pop _ He) as (x & c' & Hf & Hp & _).
    exists x, c'. bq_enter w Hl Hc; simpl in *; bq_unfold; simpl;
      repeat (progress (rewrite ?Nat.eqb_refl, ?He, ?Hf, ?Hp; simpl)); eauto.
  - bq_enter w Hl Hc; simpl; intros He; bq_unfold; simpl;
      repeat (progress (rewrite ?Nat.eqb_refl, ?He; simpl)); eauto.
  - intros locker Hm. split; [|split].
    + intros e w'. apply resume_no_throw.
    + intros He.
      destruct (q_nonempty_front_pop _ He) as (x & c' & Hf & Hp & _).
      exists x, c'. destruct locker as [o].
      destruct w as [[c mu ws own] tr]. simpl in *. subst mu.
      destruct o; bq_unfold; simpl;
        repeat (progress (rewrite ?Nat.eqb_refl, ?He, ?Hf, ?Hp; simpl)); eauto.
    + intros He. destruct locker as [o].
      destruct w as [[c mu ws own] tr]. simpl in *. subst mu.
      destruct o; bq_unfold; simpl;
        repeat (progress (rewrite ?Nat.eqb_refl, ?He; simpl)); eauto.
Qed.

(** C10.  When [try_pop()] throws, the data members of the queue (storage,
    mutex, waiters and owner register) are what they were before the call:
    the error is raised before the storage is touched. *)
Theorem try_pop_error_atomic (t : tid) (w w' : world) (e : exception) :
  lock_ok w ->
  try_pop t w = Throw e w' ->
  bq w' = bq w /\ q_empty (q (bq w)) = true.
Proof.
  intros Hl. destruct w as [[c mu ws own] tr].
  unfold lock_ok in Hl. simpl in Hl. subst own. simpl.
  bq_eval; intros E; inversion E; subst; bq_subst; auto; discriminate.
Qed.

(** C4.  Both overloads of [push_impl] record whether the storage was
    empty, insert the item, and call [notify_one] exactly when it was empty;
    that call unblocks one blocked thread (none when no thread is blocked).
    A push into non-empty storage neither signals nor wakes anybody.  The
    public [push] therefore adds one notification to the trace if the
    storage was empty and none otherwise. *)
Theorem push_signals_iff_was_empty (item : T) (w : world) :
  (exists w',
     push_impl item w = Ret tt w' /\
     push_impl_move item w = Ret tt w' /\
     q (bq w') = q_push item (q (bq w)) /\
     m (bq w') = m (bq w) /\
     owningThread (bq w') = owningThread (bq w) /\
     wakes_one_if_was_empty w w') /\
  (forall t w',
     push t item w = Ret tt w' \/ push_move t item w = Ret tt w' ->
     notify_count (trace w') =
       notify_count (trace w) + (if q_empty (q (bq w)) then 1 else 0) /\
     length (cv (bq w')) =
       length (cv (bq w)) - (if q_empty (q (bq w)) then 1 else 0)).
Proof.
  destruct w as [[c mu ws own] tr]. split.
  - unfold wakes_one_if_was_empty, push_impl, push_impl_move, empty_impl,
      bind, modify, cv_notify_one, ret. simpl.
    destruct (q_empty c) eqn:He; simpl.
    + destruct ws as [|x r]; simpl.
      * eexists. repeat split. exists None. auto.
      * pose proof (pick_out_perm (choose (x :: r)) x r) as HP.
        destruct (pick_out (choose (x :: r)) x r) as [z rest]. simpl in *.
        eexists. repeat split. exists (Some z). auto.
    + eexists. repeat split.
  - intros t w' E.
    assert (Hlen : forall x r,
               length (snd (pick_out (choose (x :: r)) x r)) = length r).
    { intros x r. pose proof (pick_out_perm (choose (x :: r)) x r) as HP.
      apply Permutation_length in HP. simpl in HP. lia. }
    unfold notify_count.
    destruct E as [E|E]; revert E; bq_eval; intros E; inversion E; subst;
      simpl; try lia;
      match goal with
      | Hp : pick_out _ ?x ?r = (_, ?rest) |- _ =>
          specialize (Hlen x r); rewrite Hp in Hlen; simpl in Hlen; lia
      end.
Qed.

(** C5.  On every state reached from a new queue: the register names a
    thread exactly when that thread holds the mutex; the lock events of the
    trace form a path of the owner state machine (Unowned to OwnedBy by
    [lock()] or a successful [try_lock()], OwnedBy to Unowned by [unlock()]
    of the owner) ending in the register's value; [owns_lock()] is true
    exactly for the thread the register names, hence false for every other
    thread; a failed [try_lock()] changes nothing.  Inside [lock()], after
    [m.lock()] and before the store, the register still reads Unowned, so
    no thread is told that it owns the lock before the owner is recorded. *)
Theorem owner_register_state_machine (sched : list (tid * action))
  (h : list observation) (S : system) :
  run sched system_new = Some (h, S) ->
  let w := sys_world S in
  owningThread (bq BlockingQueue_new) = no_thread /\
  (forall t, owningThread (bq w) = this_thread_get_id t <-> m (bq w) = Some t) /\
  owner_after (trace w) = Some (register_state (owningThread (bq w))) /\
  (forall t, owns_lock t w = true <-> owningThread (bq w) = this_thread_get_id t) /\
  (forall t u, m (bq w) = Some t -> u <> t -> owns_lock u w = false) /\
  (forall t w', lock t w = Ret tt w' ->
     owningThread (bq w) = no_thread /\ w' = locked_by t w) /\
  (forall t spurious w', try_lock t spurious w = Ret true w' ->
     owningThread (bq w) = no_thread /\
     owningThread (bq w') = this_thread_get_id t /\ m (bq w') = Some t /\
     trace w' = EvTryLock t :: trace w) /\
  (forall t spurious w', try_lock t spurious w = Ret false w' -> w' = w) /\
  (forall t w', unlock t w = Ret tt w' ->
     owningThread (bq w) = this_thread_get_id t /\ w' = unlocked_by t w) /\
  (forall t w1, m_lock t w = Ret tt w1 ->
     m (bq w1) = Some t /\ owningThread (bq w1) = no_thread /\
     forall u, owns_lock u w1 = false).
Proof.
  intros Hr w. destruct (run_new_good _ Hr) as [[Hl Htr] _].
  fold w in Hl, Htr. clearbody w. clear Hr.
  split; [reflexivity|].
  split; [intros t; unfold this_thread_get_id; rewrite Hl; tauto|].
  split; [exact Htr|].
  split; [intros t; apply owns_lock_iff|].
  split.
  { intros t u Hm Hu. apply owns_lock_false_iff. unfold lock_ok in Hl.
    rewrite Hl, Hm. unfold this_thread_get_id. congruence. }
  destruct w as [[c mu ws own] tr]. unfold lock_ok in Hl. simpl in Hl.
  subst own. unfold locked_by, unlocked_by.
  split; [|split; [|split; [|split]]].
  - intros t w'. bq_eval; intros E; inversion E; subst; auto.
  - intros t spurious w'. bq_eval; intros E; inversion E; subst; auto.
  - intros t spurious w'. bq_eval; intros E; inversion E; subst; auto.
  - intros t w'. bq_eval; intros E; inversion E; subst; bq_subst; auto.
  - intros t w1. bq_eval; intros E; inversion E; subst; auto.
Qed.

(** C7.  Whatever the interleaving of producers and consumers, an item whose
    [push] returned is either still in the storage or was returned by one
    [pop()]/[try_pop()], and nothing else is returned: pushed items are the
    returned items together with the stored ones, as multisets.  Once the
    storage is drained the returned items are exactly the pushed ones. *)
Theorem conservation (sched : list (tid * action)) (h : list observation)
  (S : system) :
  run sched system_new = Some (h, S) ->
  no_clear sched = true ->
  Permutation (pushed h) (popped h ++ q_items (q (bq (sys_world S)))) /\
  (q_items (q (bq (sys_world S))) = [] -> Permutation (popped h) (pushed h)).
Proof.
  intros Hr Hn.
  assert (HP : Permutation (pushed h)
                 (popped h ++ q_items (q (bq (sys_world S))))).
  { pose proof (@run_conservation _ sched system_new S h
                  (Forall_nil _) Hn Hr) as HP.
    simpl in HP. rewrite q_new_items, app_nil_r in HP. exact HP. }
  split; [exact HP|].
  intros He. rewrite He, app_nil_r in HP. symmetry. exact HP.
Qed.

(** With enough fuel [clear_impl] returns, leaving no item. *)
Lemma clear_impl_total (fuel : nat) (t : tid) (w : world) :
  match clear_impl fuel t w with
  | Ret _ w' => exists c, w' = set_q c w /\ q_items c = []
  | Stuck s => s = OutOfFuel /\ fuel < length (q_items (q (bq w)))
  | _ => False
  end.
Proof.
  revert w. induction fuel as [|fuel IH]; intros w; simpl; unfold empty_impl;
    destruct (q_empty (q (bq w))) eqn:E.
  - exists (q (bq w)). rewrite set_q_id. split; auto.
    apply q_empty_items, E.
  - split; auto. apply q_nonempty_items in E.
    destruct (q_items (q (bq w))); [congruence | simpl; lia].
  - exists (q (bq w)). rewrite set_q_id. split; auto.
    apply q_empty_items, E.
  - rewrite pop_impl_nonempty by exact E.
    destruct (q_nonempty_front_pop _ E) as (x & c' & Hf & Hp & HP).
    rewrite Hf, Hp. specialize (IH (set_q c' w)).
    destruct (clear_impl fuel t (set_q c' w)); auto.
    destruct IH as [-> Hlt]. split; auto. simpl in Hlt.
    apply Permutation_length in HP. simpl in HP. lia.
Qed.




Lemma empty_ret (u : tid) (w w2 : world) (b : bool) :
  empty u w = Ret b w2 ->
  b = q_empty (q (bq w)) /\ q (bq w2) = q (bq w).
Proof.
  destruct w as [[c mu ws own] tr].
  bq_eval; intros E; inversion E; subst; auto.
Qed.

Lemma push_ret (u : tid) (item : T) (w w2 : world) :
  push u item w = Ret tt w2 ->
  q (bq w2) = q_push item (q (bq w)).
Proof.
  destruct w as [[c mu ws own] tr].
  bq_eval; intros E; inversion E; subst; auto.
Qed.

Lemma pop_ret (u : tid) (x : T) (w w2 : world) :
  pop u w = Ret x w2 ->
  q_front (q (bq w)) = Some x /\ q_pop (q (bq w)) = Some (q (bq w2)).
Proof.
  destruct w as [[c mu ws own] tr].
  bq_eval; intros E; inversion E; subst; auto.
Qed.

Lemma try_pop_ret (u : tid) (x : T) (w w2 : world) :
  try_pop u w = Ret x w2 ->
  q_front (q (bq w)) = Some x /\ q_pop (q (bq w)) = Some (q (bq w2)).
Proof.
  destruct w as [[c mu ws own] tr].
  bq_eval; intros E; inversion E; subst; auto.
Qed.

Lemma empty_enter (t : tid) (w : world) :
  lock_ok w -> can_enter t w ->
  exists w', empty t w = Ret (q_empty (q (bq w))) w'.
Proof.
  intros Hl Hc. bq_enter w Hl Hc; bq_eval; eauto; congruence.
Qed.

(** What holds of a queue whose storage is empty. *)
Lemma emptied_facts (t : tid) (w : world) :
  lock_ok w -> can_enter t w -> q_items (q (bq w)) = [] ->
  (exists w', empty t w = Ret true w') /\
  (forall u b w', empty u w = Ret b w' -> b = true) /\
  (forall u item w', push u item w = Ret tt w' ->
     q_items (q (bq w')) = [item]).
Proof.
  intros Hl Hc Hi. assert (He : q_empty (q (bq w)) = true).
  { apply q_empty_items, Hi. }
  split; [|split].
  - destruct (empty_enter Hl Hc) as [w' E]. rewrite He in E. eauto.
  - intros u b w' E. apply empty_ret in E. destruct E as [-> _]. exact He.
  - intros u item w' E. apply push_ret in E. rewrite E.
    apply Permutation_length_1_inv. symmetry.
    rewrite <- Hi at 1. apply q_push_items.
Qed.

(** C8.  [clear()] pops until the storage is empty and returns; an
    [empty()] right after it answers true; [clear()] touches nothing but the
    items that were stored, so an item pushed after it returned is stored as
    the only item. *)
Theorem clear_empties (fuel : nat) (t : tid) (w : world) :
  lock_ok w -> can_enter t w ->
  length (q_items (q (bq w))) <= fuel ->
  exists w',
    clear fuel t w = Ret tt w' /\
    q_items (q (bq w')) = [] /\
    m (bq w') = m (bq w) /\
    owningThread (bq w') = owningThread (bq w) /\
    cv (bq w') = cv (bq w) /\
    (exists w'', empty t w' = Ret true w'') /\
    (forall u b w'', empty u w' = Ret b w'' -> b = true) /\
    (forall u item w'', push u item w' = Ret tt w'' ->
       q_items (q (bq w'')) = [item]).
Proof.
  intros Hl Hc Hf.
  assert (Hmain : exists w',
    clear fuel t w = Ret tt w' /\ q_items (q (bq w')) = [] /\
    m (bq w') = m (bq w) /\ owningThread (bq w') = owningThread (bq w) /\
    cv (bq w') = cv (bq w)).
  { unfold clear. rewrite with_get_lock_eq.
    pose proof (clear_impl_total fuel t w) as H1.
    pose proof (clear_impl_total fuel t (locked_by t w)) as H2.
    unfold lock_ok in Hl. unfold can_enter in Hc.
    destruct (owns_lock t w) eqn:Ho.
    - destruct (clear_impl fuel t w) as [[] w1| | |s]; try tauto.
      + destruct H1 as [c1 [-> Hi]]. exists (set_q c1 w). auto.
      + destruct H1 as [_ Hlt]. lia.
    - apply owns_lock_false_iff in Ho.
      destruct Hc as [Hc|Hc];
        [|rewrite Hl, Hc in Ho; unfold this_thread_get_id in Ho; congruence].
      rewrite Hc.
      destruct (clear_impl fuel t (locked_by t w)) as [[] w1| | |s];
        try tauto.
      + destruct H2 as [c1 [-> Hi]].
        destruct w as [[c mu ws own] tr]. simpl in *. subst.
        bq_eval. eexists. split; [reflexivity|]. simpl. auto.
      + destruct H2 as [_ Hlt]. simpl in Hlt. lia. }
  destruct Hmain as (w' & E & Hi & Hm & Ho & Hv).
  exists w'. repeat (split; [assumption|]).
  apply emptied_facts; auto.
  - unfold lock_ok in *. congruence.
  - unfold can_enter in *. rewrite Hm. exact Hc.
Qed.

End Claims.

(** ** Further properties of the member functions *)

Section Extras.
Context `{!QueueSpec}.

Ltac bq_hyp_case :=
  repeat match goal with
  | E : match ?x with _ => _ end = _ |- _ =>
      destruct x eqn:?; try discriminate E
  end.

Ltac bq_not_enter :=
  split; [reflexivity|];
  unfold can_enter; simpl; intros [X|X]; [discriminate|];
  injection X as X; subst;
  match goal with E : Nat.eqb ?x ?x = false |- _ =>
    rewrite Nat.eqb_refl in E; discriminate end.

(** X1.  Move construction never throws and never waits.  When the caller
    can take the source's lock it returns a new, unlocked, unowned queue
    without waiters that stores what the source stored; the source keeps its
    waiters and its lock state (a caller that owned the lock still owns it,
    another caller locked and unlocked), and stores the moved-from content.
    It blocks exactly when another thread holds the source's lock. *)
Theorem move_transfers_contents (t : tid) (moved_from : Q -> Q)
  (other : world) :
  lock_ok other ->
  match BlockingQueue_move t moved_from other with
  | Ret new other' =>
      can_enter t other /\
      bq new = {| q := q (bq other); m := None; cv := [];
                  owningThread := no_thread |} /\
      q (bq other') = moved_from (q (bq other)) /\
      m (bq other') = m (bq other) /\
      owningThread (bq other') = owningThread (bq other) /\
      cv (bq other') = cv (bq other) /\
      lock_events (trace other') =
        (if owns_lock t other then []
         else [EvUnlock t; EvLock t]) ++ lock_events (trace other)
  | Throw _ _ => False
  | Suspend _ _ => False
  | Stuck s => s = Blocked /\ ~ can_enter t other
  end.
Proof.
  intros Hl. destruct other as [[c mu ws own] tr].
  unfold lock_ok in Hl. simpl in Hl. subst own.
  unfold BlockingQueue_move, lock_events, can_enter.
  bq_eval; bq_hyp_case; bq_subst; simpl; rewrite ?Nat.eqb_refl;
    first [ congruence | bq_not_enter | solve [repeat split; auto] ].
Qed.

(** A caller that finds the mutex held by another thread blocks in
    [get_lock()] before the body runs. *)
Lemma with_get_lock_blocked {A : Type} (t u : tid) (body : M A) (w : world) :
  lock_ok w -> m (bq w) = Some t -> u <> t ->
  with_get_lock u body w = Stuck Blocked.
Proof.
  intros Hl Hm Hu. rewrite with_get_lock_eq. unfold lock_ok in Hl.
  assert (Ho : owns_lock u w = false).
  { apply owns_lock_false_iff. rewrite Hl, Hm. unfold this_thread_get_id.
    congruence. }
  rewrite Ho, Hm. destruct (Nat.eqb t u) eqn:E; auto.
  apply Nat.eqb_eq in E. congruence.
Qed.

Lemma resume_blocked (t u : tid) (k : frame) (w : world) :
  m (bq w) = Some t -> u <> t -> resume u k w = Stuck Blocked.
Proof.
  intros Hm Hu. induction k as [|fuel k IH|locker k IH]; simpl.
  - unfold lock, bind, m_lock. cbv beta. rewrite Hm.
    destruct (Nat.eqb t u) eqn:E; auto.
    apply Nat.eqb_eq in E. congruence.
  - rewrite IH. reflexivity.
  - rewrite IH. reflexivity.
Qed.

(** X2.  While a thread holds the queue's lock no other thread gets in: it
    does not own the lock, each of its data operations, its [lock()], its
    move construction from the queue and its wake-up from [cv.wait] block,
    and its [try_lock()] returns false and changes nothing. *)
Theorem lock_excludes_others (t u : tid) (w : world) :
  lock_ok w -> m (bq w) = Some t -> u <> t ->
  owns_lock u w = false /\
  (forall c, is_data_op c = true -> exec u c w = Stuck Blocked) /\
  lock u w = Stuck Blocked /\
  (forall spurious, try_lock u spurious w = Ret false w) /\
  (forall moved_from, BlockingQueue_move u moved_from w = Stuck Blocked) /\
  (forall k, resume u k w = Stuck Blocked).
Proof.
  intros Hl Hm Hu.
  assert (E : Nat.eqb t u = false).
  { apply Nat.eqb_neq. congruence. }
  split; [|split; [|split; [|split; [|split]]]].
  - apply owns_lock_false_iff. unfold lock_ok in Hl. rewrite Hl, Hm.
    unfold this_thread_get_id. congruence.
  - intros c Hc. destruct c; try discriminate; simpl; unfold bind,
      push, push_move, pop, try_pop, clear, empty;
      rewrite (with_get_lock_blocked _ Hl Hm Hu); reflexivity.
  - unfold lock, bind, m_lock. cbv beta. rewrite Hm, E. reflexivity.
  - intros spurious. unfold try_lock, bind, m_try_lock, ret. cbv beta.
    rewrite Hm, E. reflexivity.
  - intros moved_from. unfold BlockingQueue_move.
    apply with_get_lock_blocked with (t := t); assumption.
  - intros k. apply resume_blocked with (t := t); assumption.
Qed.

(** X3.  [try_lock()] by a thread that does not own the lock never blocks:
    it returns true exactly when the mutex is free and the attempt does not
    fail spuriously, and then the caller is the recorded owner; otherwise it
    returns false and leaves the queue as it was. *)
Theorem try_lock_never_blocks (t : tid) (spurious : bool) (w : world) :
  lock_ok w -> owns_lock t w = false ->
  exists b w',
    try_lock t spurious w = Ret b w' /\
    (b = true <-> m (bq w) = None /\ spurious = false) /\
    (b = false -> w' = w) /\
    (b = true ->
     lock_ok w' /\ m (bq w') = Some t /\ owns_lock t w' = true /\
     q (bq w') = q (bq w) /\ cv (bq w') = cv (bq w)).
Proof.
  intros Hl Ho. destruct w as [[c mu ws own] tr].
  unfold lock_ok in Hl. simpl in Hl. subst own. revert Ho.
  unfold lock_ok. destruct spurious; bq_eval; intros Ho;
    try discriminate Ho; eexists; eexists; (split; [reflexivity|]);
    simpl; rewrite ?Nat.eqb_refl;
    repeat split; intros; try discriminate; try tauto; auto;
    match goal with
    | X : _ /\ _ |- _ => destruct X; discriminate
    end.
Qed.

(** X4.  A [lock()] or a successful [try_lock()] followed by [unlock()] of
    the same thread leaves the data members as they were; the thread owns
    the lock in between and neither before nor after. *)
Theorem lock_unlock_round_trip (t : tid) (w w1 : world) :
  lock_ok w ->
  lock t w = Ret tt w1 \/
  (exists spurious, try_lock t spurious w = Ret true w1) ->
  owns_lock t w = false /\ owns_lock t w1 = true /\
  exists w2,
    unlock t w1 = Ret tt w2 /\ bq w2 = bq w /\ owns_lock t w2 = false.
Proof.
  intros Hl H1. destruct w as [[c mu ws own] tr].
  unfold lock_ok in Hl. simpl in Hl. subst own.
  assert (Hw1 : mu = None /\
                (w1 = locked_by t {| bq := {| q := c; m := mu; cv := ws;
                                              owningThread := mu |};
                                     trace := tr |} \/
                 w1 = log (EvTryLock t)
                        (set_owningThread (this_thread_get_id t)
                           (set_m (Some t)
                              {| bq := {| q := c; m := mu; cv := ws;
                                          owningThread := mu |};
                                 trace := tr |})))).
  { unfold locked_by. destruct H1 as [E|[spurious E]]; revert E.
    - unfold lock, m_lock, bind, modify. simpl.
      destruct mu as [u|]; [destruct (Nat.eqb u t); discriminate|].
      intros [= <-]. auto.
    - unfold try_lock, m_try_lock, bind, modify, ret. simpl.
      destruct mu as [u|]; [destruct (Nat.eqb u t); discriminate|].
      destruct spurious; [discriminate|]. intros [= <-]. auto. }
  clear H1. destruct Hw1 as [-> Hw1].
  destruct Hw1 as [-> | ->]; unfold locked_by; bq_unfold; simpl;
    rewrite ?Nat.eqb_refl; repeat split; eexists; repeat split.
Qed.

(** X5.  [empty()] only looks: when it returns, every data member is what
    it was, and the answer is what the container's [empty()] says. *)
Theorem empty_is_read_only (t : tid) (w w' : world) (b : bool) :
  lock_ok w ->
  empty t w = Ret b w' ->
  bq w' = bq w /\ b = q_empty (q (bq w)).
Proof.
  intros Hl. destruct w as [[c mu ws own] tr].
  unfold lock_ok in Hl. simpl in Hl. subst own.
  bq_eval; intros E; inversion E; subst; bq_hyp_case; bq_subst; auto.
Qed.

Lemma clear_impl_empty (fuel : nat) (t : tid) (w : world) :
  q_empty (q (bq w)) = true -> clear_impl fuel t w = Ret tt w.
Proof.
  intros E. destruct fuel; simpl; unfold empty_impl; rewrite E; reflexivity.
Qed.

(** The shape of the state [clear()] returns. *)
Lemma clear_ret_shape (fuel : nat) (t : tid) (w w1 : world) :
  lock_ok w -> clear fuel t w = Ret tt w1 ->
  can_enter t w /\
  exists c, q_empty c = true /\ bq w1 = bq (set_q c w) /\
            (q_empty (q (bq w)) = true -> c = q (bq w)).
Proof.
  intros Hl. unfold clear. rewrite with_get_lock_eq.
  assert (Hc : forall w0, q (bq w0) = q (bq w) ->
             match clear_impl fuel t w0 with
             | Ret _ w' => exists c, w' = set_q c w0 /\ q_empty c = true /\
                             (q_empty (q (bq w)) = true -> c = q (bq w))
             | Throw _ _ => False
             | Suspend _ _ => False
             | Stuck _ => True
             end).
  { intros w0 Hq. destruct (q_empty (q (bq w))) eqn:E.
    - rewrite clear_impl_empty by (rewrite Hq; exact E).
      exists (q (bq w0)). rewrite set_q_id, Hq. auto.
    - pose proof (clear_impl_spec fuel t w0) as Hs.
      destruct (clear_impl fuel t w0); auto.
      destruct Hs as [c [-> Hc]]. exists c. repeat split; auto.
      discriminate. }
  unfold lock_ok in Hl. unfold can_enter.
  destruct (owns_lock t w) eqn:Ho.
  - apply owns_lock_iff in Ho. rewrite Hl in Ho.
    specialize (Hc w eq_refl).
    destruct (clear_impl fuel t w) as [[] w'| | |]; simpl; try discriminate;
      try tauto.
    destruct Hc as (c & -> & Hc & He). unfold ret. intros [= <-].
    split; [right; exact Ho|]. exists c. auto.
  - destruct (m (bq w)) as [u|] eqn:Hm.
    + destruct (Nat.eqb u t); discriminate.
    + specialize (Hc (locked_by t w) eq_refl).
      destruct (clear_impl fuel t (locked_by t w)) as [[] w'| | |]; simpl;
        try discriminate; try tauto.
      destruct Hc as (c & -> & Hc & He).
      destruct w as [[s mu ws own] tr]. simpl in *. subst.
      bq_eval. intros [= <-]. split; [left; reflexivity|].
      exists c. auto.
Qed.

Lemma clear_empty_queue (fuel : nat) (t : tid) (w : world) :
  lock_ok w -> can_enter t w -> q_empty (q (bq w)) = true ->
  exists w', clear fuel t w = Ret tt w' /\ bq w' = bq w.
Proof.
  intros Hl Hc He. unfold clear. rewrite with_get_lock_eq.
  unfold lock_ok in Hl. unfold can_enter in Hc.
  destruct (owns_lock t w) eqn:Ho.
  - rewrite clear_impl_empty by exact He. exists w. split; reflexivity.
  - apply owns_lock_false_iff in Ho.
    destruct Hc as [Hc|Hc];
      [|rewrite Hl, Hc in Ho; unfold this_thread_get_id in Ho; congruence].
    rewrite Hc. rewrite clear_impl_empty by exact He.
    destruct w as [[s mu ws own] tr]. simpl in *. subst.
    bq_eval. eexists. split; reflexivity.
Qed.

(** X6.  After [clear()] the storage is empty; clearing an empty queue
    changes no data member, whatever the loop bound; so a second [clear()]
    right after the first changes nothing. *)
Theorem clear_idempotent (fuel fuel2 : nat) (t : tid) (w w1 : world) :
  lock_ok w ->
  clear fuel t w = Ret tt w1 ->
  q_empty (q (bq w1)) = true /\
  (q_empty (q (bq w)) = true -> bq w1 = bq w) /\
  exists w2, clear fuel2 t w1 = Ret tt w2 /\ bq w2 = bq w1.
Proof.
  intros Hl E. destruct (clear_ret_shape _ _ Hl E) as [Hc (c & He & Hb & Hs)].
  assert (Hq : q (bq w1) = c) by (rewrite Hb; reflexivity).
  assert (Hm : m (bq w1) = m (bq w)) by (rewrite Hb; reflexivity).
  assert (Ho : owningThread (bq w1) = owningThread (bq w))
    by (rewrite Hb; reflexivity).
  split; [rewrite Hq; exact He|]. split.
  - intros He0. rewrite Hb, (Hs He0). destruct w as [[s mu ws own] tr].
    reflexivity.
  - apply clear_empty_queue.
    + unfold lock_ok in *. congruence.
    + unfold can_enter in *. rewrite Hm. exact Hc.
    + rewrite Hq. exact He.
Qed.

Lemma push_enter (t : tid) (item : T) (w : world) :
  lock_ok w -> can_enter t w ->
  exists w', push t item w = Ret tt w' /\
             q (bq w') = q_push item (q (bq w)) /\
             m (bq w') = m (bq w) /\
             owningThread (bq w') = owningThread (bq w).
Proof.
  intros Hl Hc. bq_enter w Hl Hc; bq_eval; eexists; repeat split.
Qed.

Lemma try_pop_enter (t : tid) (w : world) :
  lock_ok w -> can_enter t w -> q_empty (q (bq w)) = false ->
  exists x c' w',
    q_front (q (bq w)) = Some x /\ q_pop (q (bq w)) = Some c' /\
    try_pop t w = Ret x w' /\ q (bq w') = c' /\
    m (bq w') = m (bq w) /\ owningThread (bq w') = owningThread (bq w).
Proof.
  intros Hl Hc He.
  destruct (q_nonempty_front_pop _ He) as (x & c' & Hf & Hp & _).
  exists x, c'. bq_enter w Hl Hc; simpl in *; bq_unfold; simpl;
    repeat (progress (rewrite ?Nat.eqb_refl, ?He, ?Hf, ?Hp; simpl));
    eexists; repeat split.
Qed.

Lemma pop_enter (t : tid) (w : world) :
  lock_ok w -> can_enter t w -> q_empty (q (bq w)) = false ->
  exists x c' w',
    q_front (q (bq w)) = Some x /\ q_pop (q (bq w)) = Some c' /\
    pop t w = Ret x w' /\ q (bq w') = c' /\
    m (bq w') = m (bq w) /\ owningThread (bq w') = owningThread (bq w).
Proof.
  intros Hl Hc He.
  destruct (q_nonempty_front_pop _ He) as (x & c' & Hf & Hp & _).
  exists x, c'. bq_enter w Hl Hc; simpl in *; bq_unfold; simpl;
    repeat (progress (rewrite ?Nat.eqb_refl, ?He, ?Hf, ?Hp; simpl));
    eexists; repeat split.
Qed.

(** X7.  On a queue without items, [push(x)] followed by [try_pop()] hands
    [x] back and leaves the queue without items again, for every container
    that meets the container interface (FIFO or priority). *)
Theorem push_try_pop_round_trip (t : tid) (x : T) (w : world) :
  lock_ok w -> can_enter t w -> q_items (q (bq w)) = [] ->
  exists w1 w2,
    push t x w = Ret tt w1 /\
    try_pop t w1 = Ret x w2 /\
    q_items (q (bq w2)) = [] /\
    m (bq w2) = m (bq w) /\ owningThread (bq w2) = owningThread (bq w).
Proof.
  intros Hl Hc Hi.
  destruct (push_enter x Hl Hc) as (w1 & E1 & Hq1 & Hm1 & Ho1).
  assert (HP1 : Permutation (q_items (q (bq w1))) [x]).
  { rewrite Hq1. rewrite <- Hi. apply q_push_items. }
  assert (He1 : q_empty (q (bq w1)) = false).
  { destruct (q_empty (q (bq w1))) eqn:E; auto.
    apply q_empty_items in E. rewrite E in HP1.
    apply Permutation_nil in HP1. discriminate. }
  assert (Hl1 : lock_ok w1) by (unfold lock_ok in *; congruence).
  assert (Hc1 : can_enter t w1) by (unfold can_enter in *; rewrite Hm1; auto).
  destruct (try_pop_enter Hl1 Hc1 He1)
    as (y & c' & w2 & Hf & Hp & E2 & Hq2 & Hm2 & Ho2).
  destruct (q_nonempty_front_pop _ He1) as (y' & c2 & Hf' & Hp' & HP2).
  assert (y' = y) by congruence. assert (c2 = c') by congruence. subst y' c2.
  rewrite HP1 in HP2. apply Permutation_length_1_inv in HP2.
  injection HP2 as Hy Hn. subst y.
  exists w1, w2. split; [exact E1|]. split; [exact E2|].
  split; [rewrite Hq2; exact Hn|]. split; congruence.
Qed.

(** What a call of [push] does to the storage, the waiters and the count
    of notifications. *)
Lemma exec_push_effect (t : tid) (c : call) (w : world) :
  is_push (ACall c) = true ->
  match exec t c w with
  | Ret _ w' =>
      (exists x, q (bq w') = q_push x (q (bq w))) /\
      if q_empty (q (bq w)) then
        notify_count (trace w') = S (notify_count (trace w)) /\
        length (cv (bq w')) = length (cv (bq w)) - 1
      else
        notify_count (trace w') = notify_count (trace w) /\
        cv (bq w') = cv (bq w)
  | Throw _ _ => False
  | Suspend _ _ => False
  | Stuck _ => True
  end.
Proof.
  assert (Hlen : forall x r,
             length (snd (pick_out (choose (x :: r)) x r)) = length r).
  { intros x r. pose proof (pick_out_perm (choose (x :: r)) x r) as HP.
    apply Permutation_length in HP. simpl in HP. lia. }
  destruct w as [[s mu ws own] tr]. unfold notify_count.
  destruct c; simpl; try discriminate; intros _;
    bq_eval; auto; try congruence;
    (split; [eexists; reflexivity|]); simpl; auto;
    split; try lia; auto;
    match goal with
    | Hp : pick_out _ ?x ?r = (_, ?rest) |- _ =>
        specialize (Hlen x r); rewrite Hp in Hlen; simpl in Hlen; lia
    end.
Qed.

Lemma q_push_nonempty (x : T) (c : Q) : q_empty (q_push x c) = false.
Proof.
  destruct (q_empty (q_push x c)) eqn:E; auto.
  apply q_empty_items in E. pose proof (q_push_items x c) as HP.
  rewrite E in HP. apply Permutation_nil in HP. discriminate.
Qed.

Lemma only_pushes_cons (t : tid) (a : action) (rest : list (tid * action)) :
  only_pushes ((t, a) :: rest) = true ->
  is_push a = true /\ only_pushes rest = true.
Proof. unfold only_pushes. simpl. apply andb_true_iff. Qed.

(** One step of a push. *)
Lemma sys_step_push (t : tid) (a : action) (S S' : system) (o : outcome) :
  is_push a = true ->
  sys_step t a S = Some (o, S') ->
  suspended S' = suspended S /\
  q_empty (q (bq (sys_world S'))) = false /\
  pushed_item (t, a, o) <> [] /\
  if q_empty (q (bq (sys_world S))) then
    notify_count (trace (sys_world S')) =
      Datatypes.S (notify_count (trace (sys_world S))) /\
    length (cv (bq (sys_world S'))) = length (cv (bq (sys_world S))) - 1
  else
    notify_count (trace (sys_world S')) = notify_count (trace (sys_world S)) /\
    cv (bq (sys_world S')) = cv (bq (sys_world S)).
Proof.
  intros Ha. unfold sys_step. destruct a as [c| |]; try discriminate.
  destruct (find_frame t (suspended S)); [discriminate|].
  intros E. apply settle_inv in E.
  pose proof (@exec_push_effect t c (sys_world S) Ha) as He.
  destruct E as [(v & E & -> & Es)|[(e & E & _ & Es)|(k & E & _ & Es)]];
    rewrite E in He; try tauto.
  destruct He as [[x Hq] He]. split; [exact Es|].
  split; [rewrite Hq; apply q_push_nonempty|].
  split; [destruct c; try discriminate; simpl; discriminate|]. exact He.
Qed.

Lemma run_pushes_nonempty (sched : list (tid * action)) (S S' : system)
  (h : list observation) :
  only_pushes sched = true ->
  run sched S = Some (h, S') ->
  q_empty (q (bq (sys_world S))) = false ->
  notify_count (trace (sys_world S')) = notify_count (trace (sys_world S)) /\
  cv (bq (sys_world S')) = cv (bq (sys_world S)) /\
  q_empty (q (bq (sys_world S'))) = false /\
  suspended S' = suspended S.
Proof.
  revert S h. induction sched as [|[t a] rest IH]; intros S h Hp; simpl.
  - intros [= _ <-]. auto.
  - apply only_pushes_cons in Hp. destruct Hp as [Ha Hp].
    destruct (sys_step t a S) as [[o S1]|] eqn:E1; [|discriminate].
    destruct (run rest S1) as [[h1 S2]|] eqn:E2; [|discriminate].
    intros [= _ <-] He.
    destruct (@sys_step_push t a S S1 o Ha E1) as (Hs & He1 & _ & Hn).
    rewrite He in Hn. destruct Hn as [Hn Hc].
    destruct (IH S1 h1 Hp E2 He1) as (Hn2 & Hc2 & He2 & Hs2).
    repeat split; congruence.
Qed.

(** X8.  A burst of pushes into an empty queue, by whichever threads and
    with nothing else in between, calls [notify_one] once, for the first
    push only: one of the threads blocked in [pop()] is unblocked and all
    the others stay blocked although the queue now holds items. *)
Theorem push_burst_notifies_once (sched : list (tid * action))
  (S S' : system) (h : list observation) :
  only_pushes sched = true ->
  sched <> [] ->
  q_empty (q (bq (sys_world S))) = true ->
  run sched S = Some (h, S') ->
  notify_count (trace (sys_world S')) =
    Datatypes.S (notify_count (trace (sys_world S))) /\
  length (cv (bq (sys_world S'))) = length (cv (bq (sys_world S))) - 1 /\
  q_empty (q (bq (sys_world S'))) = false /\
  suspended S' = suspended S.
Proof.
  destruct sched as [|[t a] rest]; [congruence|]. intros Hp _ He. simpl.
  apply only_pushes_cons in Hp. destruct Hp as [Ha Hp].
  destruct (sys_step t a S) as [[o S1]|] eqn:E1; [|discriminate].
  destruct (run rest S1) as [[h1 S2]|] eqn:E2; [|discriminate].
  intros [= _ <-].
  destruct (@sys_step_push t a S S1 o Ha E1) as (Hs & He1 & _ & Hn).
  rewrite He in Hn. destruct Hn as [Hn Hc].
  destruct (@run_pushes_nonempty rest S1 S2 h1 Hp E2 He1)
    as (Hn2 & Hc2 & He2 & Hs2).
  repeat split; congruence.
Qed.

(** [clear()] returns no item and leaves empty storage. *)
Lemma exec_clear_effect (fuel : nat) (t : tid) (w : world) :
  match exec t (CClear fuel) w with
  | Ret v w' => v = VUnit /\ q_items (q (bq w')) = []
  | Throw _ _ => False
  | Suspend _ _ => False
  | Stuck _ => True
  end.
Proof.
  simpl. unfold clear, bind. rewrite with_get_lock_eq.
  pose proof (clear_impl_spec fuel t w) as H1.
  pose proof (clear_impl_spec fuel t (locked_by t w)) as H2.
  destruct (owns_lock t w).
  - destruct (clear_impl fuel t w) as [a w1| | |]; simpl; try tauto.
    destruct H1 as [c [-> Hc]]. split; [reflexivity|].
    apply q_empty_items, Hc.
  - destruct (m (bq w)) as [u|].
    + destruct (Nat.eqb u t); exact I.
    + destruct (clear_impl fuel t (locked_by t w)) as [a w1| | |];
        try tauto.
      destruct H2 as [c [-> Hc]]. apply q_empty_items in Hc.
      destruct w as [[s mu ws own] tr]. bq_eval; auto.
Qed.

Lemma sys_step_clear (t : tid) (a : action) (S S' : system) (o : outcome) :
  is_clear a = true ->
  sys_step t a S = Some (o, S') ->
  pushed_item (t, a, o) = [] /\ popped_item (t, a, o) = [] /\
  q_items (q (bq (sys_world S'))) = [].
Proof.
  intros Ha. unfold sys_step. destruct a as [c| |]; try discriminate.
  destruct c; try discriminate.
  destruct (find_frame t (suspended S)); [discriminate|].
  intros E. apply settle_inv in E.
  pose proof (exec_clear_effect fuel t (sys_world S)) as He.
  destruct E as [(v & E & -> & Es)|[(e & E & _ & Es)|(k & E & _ & Es)]];
    rewrite E in He; try tauto.
  destruct He as [-> Hi]. auto.
Qed.

(** With [clear()] in the schedule: what was pushed is what was returned,
    what the calls of [clear()] dropped and what is stored. *)
Lemma run_accounting (sched : list (tid * action)) (S S' : system)
  (h : list observation) :
  pop_frames (suspended S) ->
  run sched S = Some (h, S') ->
  Permutation (pushed h ++ q_items (q (bq (sys_world S))))
              (popped h ++ flat_map q_items (cleared_storage sched S)
                        ++ q_items (q (bq (sys_world S')))).
Proof.
  revert S h. induction sched as [|[t a] rest IH]; intros S h F; simpl.
  - intros [= <- <-]. reflexivity.
  - destruct (sys_step t a S) as [[o S1]|] eqn:E1; [|discriminate].
    destruct (run rest S1) as [[h1 S2]|] eqn:E2; [|discriminate].
    intros [= <- <-].
    pose proof (@sys_step_pop_frames t a S S1 o F E1) as F1.
    pose proof (IH S1 h1 F1 E2) as IHP.
    rewrite flat_map_app.
    change (pushed ((t, a, o) :: h1))
      with (pushed_item (t, a, o) ++ pushed h1).
    change (popped ((t, a, o) :: h1))
      with (popped_item (t, a, o) ++ popped h1).
    destruct (is_clear a) eqn:Ha.
    + destruct (@sys_step_clear t a S S1 o Ha E1) as (Hp & Hq & Hi).
      rewrite Hi, app_nil_r in IHP.
      rewrite Hp, Hq. simpl.
      rewrite app_nil_r, IHP, <- !app_assoc. apply Permutation_app_head.
      rewrite app_assoc. apply Permutation_app_comm.
    + pose proof (@sys_step_storage t a S S1 o F Ha E1) as Hs.
      apply storage_step_items in Hs. simpl.
      rewrite <- !app_assoc.
      etransitivity; [apply Permutation_app_swap_app|].
      etransitivity; [apply Permutation_app_head; exact Hs|].
      etransitivity; [apply Permutation_app_swap_app|].
      apply Permutation_app_head. exact IHP.
Qed.

Lemma cleared_storage_no_clear (sched : list (tid * action)) (S : system) :
  no_clear sched = true -> cleared_storage sched S = [].
Proof.
  revert S. induction sched as [|[t a] rest IH]; intros S Hn; simpl; auto.
  apply no_clear_cons in Hn. destruct Hn as [Ha Hn].
  destruct (sys_step t a S) as [[o S1]|]; auto.
  rewrite Ha. simpl. apply IH, Hn.
Qed.

(** X9.  In every schedule, [clear()] included: the pushed items are the
    returned items, the items that each [clear()] found in the storage and
    dropped, and the stored items, each counted once; without a [clear()]
    nothing is dropped.  So every returned item was pushed, and never more
    items are returned than pushed. *)
Theorem nothing_returned_unpushed (sched : list (tid * action))
  (h : list observation) (S : system) :
  run sched system_new = Some (h, S) ->
  Permutation (pushed h)
    (popped h ++ flat_map q_items (cleared_storage sched system_new)
              ++ q_items (q (bq (sys_world S)))) /\
  (no_clear sched = true -> cleared_storage sched system_new = []) /\
  (forall x, In x (popped h) -> In x (pushed h)) /\
  length (popped h) <= length (pushed h).
Proof.
  intros Hr.
  pose proof (@run_accounting sched system_new S h (Forall_nil _) Hr) as HP.
  simpl in HP. rewrite q_new_items, app_nil_r in HP.
  split; [exact HP|]. split; [apply cleared_storage_no_clear|]. split.
  - intros x Hx. eapply Permutation_in; [symmetry; exact HP|].
    apply in_or_app. left. exact Hx.
  - apply Permutation_length in HP. rewrite !length_app in HP. lia.
Qed.

(** *** Sleeping consumers *)

Ltac bq_woken :=
  first
    [ exists []; reflexivity
    | match goal with
      | Hp : pick_out ?i ?x ?r = (?z, ?rest) |- _ =>
          let HP := fresh "HP" in
          exists [z]; pose proof (pick_out_perm i x r) as HP;
          rewrite Hp in HP; exact HP
      end ].

Ltac bq_mutex :=
  first [ left; reflexivity | right; left; reflexivity
        | right; right; reflexivity ].

(** What a call does to the mutex and to the set of blocked threads. *)
Lemma exec_waiters (t : tid) (c : call) (w : world) :
  match exec t c w with
  | Ret _ w' | Throw _ w' =>
      (m (bq w') = m (bq w) \/ m (bq w') = None \/ m (bq w') = Some t) /\
      exists woken, Permutation (cv (bq w)) (woken ++ cv (bq w'))
  | Suspend _ w' => m (bq w') = None /\ cv (bq w') = cv (bq w) ++ [t]
  | Stuck _ => True
  end.
Proof.
  destruct c.
  1-4,6-10:
    destruct w as [[s mu ws own] tr];
    bq_eval; auto; bq_subst; (split; [bq_mutex | bq_woken]).
  simpl. unfold clear, bind. rewrite with_get_lock_eq.
  pose proof (clear_impl_spec fuel t w) as H1.
  pose proof (clear_impl_spec fuel t (locked_by t w)) as H2.
  destruct (owns_lock t w).
  - destruct (clear_impl fuel t w) as [a w1| | |]; simpl; try tauto.
    destruct H1 as [c [-> Hc]]. split; [left; reflexivity|].
    exists []. reflexivity.
  - destruct (m (bq w)) as [u|] eqn:Hm.
    + destruct (Nat.eqb u t); exact I.
    + destruct (clear_impl fuel t (locked_by t w)) as [a w1| | |];
        try tauto.
      destruct H2 as [c [-> Hc]].
      destruct w as [[s mu ws own] tr]. simpl in Hm. subst mu.
      bq_eval; auto. split; [left; reflexivity|]. exists []. reflexivity.
Qed.

(** What waking up does to them. *)
Lemma resume_waiters (t : tid) (k : frame) (w : world) :
  pop_frame k ->
  match resume t k w with
  | Ret _ w' | Throw _ w' =>
      (m (bq w') = None \/ m (bq w') = Some t) /\ cv (bq w') = cv (bq w)
  | Suspend _ w' => m (bq w') = None /\ cv (bq w') = cv (bq w) ++ [t]
  | Stuck _ => True
  end.
Proof.
  intros [[o] ->]. destruct w as [[s mu ws own] tr]. simpl.
  destruct o; bq_eval; auto; bq_subst; try congruence.
Qed.

(** A consumer that does not hold the mutex wakes up without undefined
    behaviour; it waits for the mutex if another thread holds it. *)
Lemma resume_defined (t : tid) (k : frame) (w : world) :
  lock_ok w -> m (bq w) <> Some t -> pop_frame k ->
  match resume t k w with
  | Ret _ _ => m (bq w) = None
  | Throw _ _ => False
  | Suspend _ _ => m (bq w) = None
  | Stuck s => s = Blocked /\ m (bq w) <> None
  end.
Proof.
  intros Hl Hm [[o] ->]. destruct w as [[s mu ws own] tr].
  unfold lock_ok in Hl. simpl in Hl, Hm. subst own. simpl.
  destruct o; bq_eval; auto; bq_subst; try congruence;
    try (split; [reflexivity | discriminate]);
    match goal with
    | He : q_empty ?c = false |- _ =>
        destruct (q_nonempty_front_pop c He) as (? & ? & ? & ? & _);
        congruence
    end.
Qed.

Lemma find_frame_drop_same (t : tid) (l : list (tid * frame)) :
  find_frame t (drop_frame t l) = None.
Proof.
  induction l as [|[u k] l IH]; simpl; auto.
  destruct (Nat.eqb u t) eqn:E; auto. simpl. rewrite E. exact IH.
Qed.

Lemma find_frame_drop_other (t u : tid) (l : list (tid * frame)) :
  u <> t -> find_frame u (drop_frame t l) = find_frame u l.
Proof.
  intros Hu. induction l as [|[v k] l IH]; simpl; auto.
  destruct (Nat.eqb v t) eqn:E.
  - apply Nat.eqb_eq in E. subst v.
    destruct (Nat.eqb t u) eqn:E2; auto.
    apply Nat.eqb_eq in E2. congruence.
  - simpl. rewrite IH. reflexivity.
Qed.

Lemma is_blocked_false (t : tid) (w : world) :
  is_blocked t w = false -> ~ In t (cv (bq w)).
Proof.
  unfold is_blocked. intros E Hin.
  assert (X : existsb (Nat.eqb t) (cv (bq w)) = true).
  { apply existsb_exists. exists t. split; auto. apply Nat.eqb_refl. }
  congruence.
Qed.

Lemma NoDup_remove_tid (t : tid) (l : list tid) :
  NoDup l -> NoDup (remove Nat.eq_dec t l).
Proof.
  induction 1 as [|x l Hx Hl IH]; simpl; [constructor|].
  destruct (Nat.eq_dec t x); auto.
  constructor; auto. intros Hin. apply in_remove in Hin. tauto.
Qed.

Lemma NoDup_snoc (t : tid) (l : list tid) :
  NoDup l -> ~ In t l -> NoDup (l ++ [t]).
Proof.
  intros Hl Ht. apply NoDup_app; auto.
  - constructor; [intros []|constructor].
  - intros x Hx [<-|[]]. contradiction.
Qed.

Lemma NoDup_woken (woken l l' : list tid) :
  Permutation l (woken ++ l') -> NoDup l -> NoDup l'.
Proof.
  intros HP Hl. eapply Permutation_NoDup in Hl; [|exact HP].
  eapply NoDup_app_remove_l. exact Hl.
Qed.

Lemma find_frame_cons (t u : tid) (k : frame) (l : list (tid * frame)) :
  find_frame u ((t, k) :: l) = if Nat.eqb t u then Some k else find_frame u l.
Proof. reflexivity. Qed.

Lemma sys_step_waiters (t : tid) (a : action) (S S' : system) (o : outcome) :
  waiters_ok S ->
  sys_step t a S = Some (o, S') ->
  waiters_ok S'.
Proof.
  intros (F & Hf & Hc & Hn) E0.
  pose proof (@sys_step_pop_frames t a S S' o F E0) as F'.
  split; [exact F'|]. clear F'. revert E0. unfold sys_step.
  destruct a as [c| |];
    destruct (find_frame t (suspended S)) as [k|] eqn:Hfr; try discriminate.
  - intros E. apply settle_inv in E.
    pose proof (exec_waiters t c (sys_world S)) as He.
    destruct E as [(v & E & _ & Es)|[(e & E & _ & Es)|(k & E & _ & Es)]];
      rewrite E in He; rewrite Es.
    + destruct He as [Hm [woken HP]]. split; [|split].
      * intros u k Hu Hmu. rewrite Hmu in Hm.
        destruct Hm as [Hm|[Hm|Hm]]; try discriminate.
        -- symmetry in Hm. exact (Hf u k Hu Hm).
        -- injection Hm as ->. congruence.
      * intros u Hin. apply Hc. eapply Permutation_in; [symmetry; exact HP|].
        apply in_or_app. right. exact Hin.
      * eapply NoDup_woken; eauto.
    + destruct He as [Hm [woken HP]]. split; [|split].
      * intros u k Hu Hmu. rewrite Hmu in Hm.
        destruct Hm as [Hm|[Hm|Hm]]; try discriminate.
        -- symmetry in Hm. exact (Hf u k Hu Hm).
        -- injection Hm as ->. congruence.
      * intros u Hin. apply Hc. eapply Permutation_in; [symmetry; exact HP|].
        apply in_or_app. right. exact Hin.
      * eapply NoDup_woken; eauto.
    + destruct He as [Hm Hcv]. split; [|split].
      * intros u k' _. rewrite Hm. discriminate.
      * intros u Hin. rewrite Hcv in Hin. rewrite find_frame_cons.
        destruct (Nat.eqb t u) eqn:Etu; [discriminate|].
        apply in_app_or in Hin. destruct Hin as [Hin|[<-|[]]]; auto.
        rewrite Nat.eqb_refl in Etu. discriminate.
      * rewrite Hcv. apply NoDup_snoc; auto.
        intros Hin. apply Hc in Hin. congruence.
  - destruct (is_blocked t (sys_world S)); [|discriminate].
    intros [= _ <-]. simpl. split; [|split].
    + exact Hf.
    + intros u Hin. apply in_remove in Hin. apply Hc. tauto.
    + apply NoDup_remove_tid. exact Hn.
  - destruct (is_blocked t (sys_world S)) eqn:Hb; [discriminate|].
    apply is_blocked_false in Hb.
    intros E. apply settle_inv in E.
    pose proof (@find_frame_pop_frame t _ k F Hfr) as Hk.
    pose proof (@resume_waiters t k (sys_world S) Hk) as He.
    destruct E as [(v & E & _ & Es)|[(e & E & _ & Es)|(k' & E & _ & Es)]];
      rewrite E in He; rewrite Es.
    + destruct He as [Hm Hcv]. split; [|split].
      * intros u k' Hu Hmu. destruct (Nat.eq_dec u t) as [->|Hut].
        -- rewrite find_frame_drop_same in Hu. discriminate.
        -- rewrite Hmu in Hm. destruct Hm as [Hm|Hm]; congruence.
      * intros u Hin. rewrite Hcv in Hin.
        rewrite find_frame_drop_other by (intros ->; contradiction).
        apply Hc, Hin.
      * rewrite Hcv. exact Hn.
    + destruct He as [Hm Hcv]. split; [|split].
      * intros u k' Hu Hmu. destruct (Nat.eq_dec u t) as [->|Hut].
        -- rewrite find_frame_drop_same in Hu. discriminate.
        -- rewrite Hmu in Hm. destruct Hm as [Hm|Hm]; congruence.
      * intros u Hin. rewrite Hcv in Hin.
        rewrite find_frame_drop_other by (intros ->; contradiction).
        apply Hc, Hin.
      * rewrite Hcv. exact Hn.
    + destruct He as [Hm Hcv]. split; [|split].
      * intros u k'' _. rewrite Hm. discriminate.
      * intros u Hin. rewrite Hcv in Hin. rewrite find_frame_cons.
        destruct (Nat.eqb t u) eqn:Etu; [discriminate|].
        apply in_app_or in Hin. destruct Hin as [Hin|[<-|[]]].
        -- rewrite find_frame_drop_other; [apply Hc, Hin|].
           intros ->. rewrite Nat.eqb_refl in Etu. discriminate.
        -- rewrite Nat.eqb_refl in Etu. discriminate.
      * rewrite Hcv. apply NoDup_snoc; auto.
Qed.

Lemma run_waiters (sched : list (tid * action)) (S S' : system)
  (h : list observation) :
  waiters_ok S -> run sched S = Some (h, S') -> waiters_ok S'.
Proof.
  revert S h. induction sched as [|[t a] rest IH]; simpl; intros S h W.
  - intros [= _ <-]. exact W.
  - destruct (sys_step t a S) as [[o S1]|] eqn:E1; [|discriminate].
    destruct (run rest S1) as [[h1 S2]|] eqn:E2; [|discriminate].
    intros [= _ <-].
    exact (IH S1 h1 (@sys_step_waiters t a S S1 o W E1) E2).
Qed.

(** X10.  In every state reached from a new queue, a thread asleep in
    [pop()] does not hold the mutex and does not own the lock, so it keeps
    nobody out; the threads blocked on the condition variable are threads
    asleep in [pop()], each listed once; and waking such a thread up never
    runs into undefined behaviour and never throws: it returns an item or
    goes back to sleep if the mutex is free, and waits for the mutex
    otherwise. *)
Theorem sleeping_consumers_hold_no_lock (sched : list (tid * action))
  (h : list observation) (S : system) :
  run sched system_new = Some (h, S) ->
  (forall t k, find_frame t (suspended S) = Some k ->
     pop_frame k /\
     m (bq (sys_world S)) <> Some t /\
     owns_lock t (sys_world S) = false /\
     match resume t k (sys_world S) with
     | Ret _ _ => m (bq (sys_world S)) = None
     | Throw _ _ => False
     | Suspend _ _ => m (bq (sys_world S)) = None
     | Stuck s => s = Blocked /\ m (bq (sys_world S)) <> None
     end) /\
  (forall t, In t (cv (bq (sys_world S))) ->
     find_frame t (suspended S) <> None) /\
  NoDup (cv (bq (sys_world S))).
Proof.
  intros Hr.
  assert (W0 : waiters_ok system_new).
  { split; [constructor|]. split; [discriminate|]. split.
    - intros t [].
    - constructor. }
  destruct (run_waiters _ W0 Hr) as (F & Hf & Hc & Hn).
  destruct (run_new_good _ Hr) as [[Hl _] _].
  split; [|split; assumption].
  intros t k Hfr.
  pose proof (@find_frame_pop_frame t _ k F Hfr) as Hk.
  pose proof (Hf t k Hfr) as Hm.
  split; [exact Hk|]. split; [exact Hm|]. split.
  - apply owns_lock_false_iff. unfold lock_ok in Hl. rewrite Hl.
    exact Hm.
  - apply resume_defined; assumption.
Qed.

End Extras.

End BlockingQueue.

Arguments Throw {Q A} e w.
Arguments Suspend {Q A} k w.
Arguments Stuck {Q A} s.

(** ** FIFO mode: [BlockingQueue<T>] over [std::queue<T>] *)

(** [std::queue] meets the container specification. *)
Lemma std_queue_empty_items (T : Type) (c : std_queue T) :
  q_empty c = true <-> c = [].
Proof. destruct c; simpl; split; congruence. Qed.

Lemma std_queue_front_pop_items (T : Type) (c : std_queue T) :
  c <> [] ->
  exists x c', q_front c = Some x /\ q_pop c = Some c' /\ Permutation c (x :: c').
Proof.
  destruct c as [|x r]; [congruence|]. intros _. exists x, r. simpl. auto.
Qed.

Lemma std_queue_empty_undefined (T : Type) (c : std_queue T) :
  c = [] -> q_front c = None /\ q_pop c = None.
Proof. intros ->. simpl. auto. Qed.

Lemma std_queue_push_items (T : Type) (x : T) (c : std_queue T) :
  Permutation (q_push x c) (x :: c).
Proof. simpl. symmetry. apply Permutation_cons_append. Qed.

Lemma std_queue_new_items (T : Type) : (q_new : std_queue T) = [].
Proof. reflexivity. Qed.

#[export] Instance std_queue_QueueSpec (T : Type)
  : QueueSpec (Q := std_queue T) := {|
  q_items := fun c => c;
  q_new_items := std_queue_new_items T;
  q_empty_items := @std_queue_empty_items T;
  q_front_pop_items := @std_queue_front_pop_items T;
  q_empty_undefined := @std_queue_empty_undefined T;
  q_push_items := @std_queue_push_items T
|}.

Section Fifo.
Context {T : Type}.
Variable choose : list tid -> nat.

Lemma fifo_storage_step (c c' : std_queue T) (ob : observation) :
  storage_step c c' ob -> c ++ pushed_item ob = popped_item ob ++ c'.
Proof.
  intros [x Hp Hq ->|x Hp Hq He Hf Ho|Hp Hq ->]; rewrite Hp, Hq; simpl.
  - reflexivity.
  - destruct c as [|y r]; simpl in *; [discriminate|].
    injection Hf as ->. injection Ho as ->. rewrite app_nil_r. reflexivity.
  - apply app_nil_r.
Qed.

(** Stored items followed by the pushed ones are the returned items
    followed by what is stored at the end. *)
Lemma run_fifo (sched : list (tid * action)) (S S' : @system (std_queue T))
  (h : list observation) :
  pop_frames (suspended S) -> no_clear sched = true ->
  run choose sched S = Some (h, S') ->
  q (bq (sys_world S)) ++ pushed h = popped h ++ q (bq (sys_world S')).
Proof.
  revert S h. induction sched as [|[t a] rest IH]; intros S h F Hn; simpl.
  - intros [= <- <-]. simpl. apply app_nil_r.
  - apply no_clear_cons in Hn. destruct Hn as [Ha Hn].
    destruct (sys_step choose t a S) as [[o S1]|] eqn:E1; [|discriminate].
    destruct (run choose rest S1) as [[h1 S2]|] eqn:E2; [|discriminate].
    intros [= <- <-].
    pose proof (sys_step_pop_frames choose t a S F E1) as F1.
    pose proof (sys_step_storage choose t a S F Ha E1) as Hs.
    apply fifo_storage_step in Hs.
    specialize (IH S1 h1 F1 Hn E2).
    change (pushed ((t, a, o) :: h1))
      with (pushed_item (t, a, o) ++ pushed h1).
    change (popped ((t, a, o) :: h1))
      with (popped_item (t, a, o) ++ popped h1).
    rewrite app_assoc, Hs, <- !app_assoc.
    f_equal. exact IH.
Qed.

(** C1.  In FIFO mode [push] appends at the back and [pop]/[try_pop]
    remove and return the front element.  Hence, along any interleaving of
    the producer's pushes of [items] (in this order) with the consumer's
    pops, blocking and waking up included, once as many items were returned
    as were pushed, the returned sequence is [items] itself. *)
Theorem fifo_order (sched : list (tid * action)) (h : list observation)
  (S : @system (std_queue T)) (items : list T) :
  run choose sched system_new = Some (h, S) ->
  no_clear sched = true ->
  pushed h = items ->
  length (popped h) = length items ->
  popped h = items /\
  (forall t x (w w' : @world (std_queue T)),
     push choose t x w = Ret tt w' -> q (bq w') = q (bq w) ++ [x]) /\
  (forall t x (w w' : @world (std_queue T)),
     pop t w = Ret x w' \/ try_pop t w = Ret x w' ->
     q (bq w) = x :: q (bq w')).
Proof.
  intros Hr Hn Hp Hl. split; [|split].
  - pose proof (@run_fifo sched system_new S h (Forall_nil _) Hn Hr) as HI.
    simpl in HI. rewrite Hp in HI.
    assert (Hq : q (bq (sys_world S)) = []).
    { apply length_zero_iff_nil.
      apply (f_equal (@length T)) in HI. rewrite length_app in HI. lia. }
    rewrite Hq, app_nil_r in HI. auto.
  - intros t x w w' E. apply push_ret in E. exact E.
  - intros t x w w' E.
    assert (Hfp : q_front (q (bq w)) = Some x /\
                  q_pop (q (bq w)) = Some (q (bq w'))).
    { destruct E as [E|E]; [apply pop_ret in E | apply try_pop_ret in E];
        exact E. }
    destruct Hfp as [Hf Ho]. destruct (q (bq w)) as [|y r]; simpl in *;
      [discriminate|]. congruence.
Qed.

End Fifo.

(** ** Priority mode: [BlockingPriorityQueue<T>] *)

Section Priority.
Context {T : Type}.
Variable less : T -> T -> bool.

(** [BlockingPriorityQueue<T>] is
    [BlockingQueue<T, PriorityQueueWrapper<std::priority_queue<T>>>]. *)
Definition BlockingPriorityQueue : Type :=
  @world (PriorityQueueWrapper (std_priority_queue less)).

Lemma extract_max_none (l : list T) : extract_max less l = None <-> l = [].
Proof.
  destruct l as [|x r]; simpl; [tauto|]. split; [|discriminate].
  destruct (extract_max less r) as [[y r']|]; [destruct (less y x)|];
    discriminate.
Qed.

Lemma extract_max_perm (l : list T) (x : T) (r : list T) :
  extract_max less l = Some (x, r) -> Permutation l (x :: r).
Proof.
  revert x r. induction l as [|a l IH]; simpl; intros x r; [discriminate|].
  destruct (extract_max less l) as [[y r']|] eqn:E.
  - destruct (less y a); intros [= <- <-].
    + reflexivity.
    + rewrite (IH y r' eq_refl). apply perm_swap.
  - intros [= <- <-]. apply extract_max_none in E. subst. reflexivity.
Qed.

Lemma wrapper_empty_items (c : PriorityQueueWrapper (std_priority_queue less)) :
  q_empty c = true <-> c = [].
Proof. destruct c; simpl; split; congruence. Qed.

Lemma wrapper_front_pop_items
  (c : PriorityQueueWrapper (std_priority_queue less)) :
  c <> [] ->
  exists x c', q_front c = Some x /\ q_pop c = Some c' /\
               Permutation c (x :: c').
Proof.
  intros Hc. simpl. unfold front. simpl.
  destruct (extract_max less c) as [[x r]|] eqn:E.
  - exists x, r. simpl. repeat split. apply extract_max_perm, E.
  - apply extract_max_none in E. contradiction.
Qed.

Lemma wrapper_empty_undefined
  (c : PriorityQueueWrapper (std_priority_queue less)) :
  c = [] -> q_front c = None /\ q_pop c = None.
Proof. intros ->. split; reflexivity. Qed.

Lemma wrapper_push_items (x : T)
  (c : PriorityQueueWrapper (std_priority_queue less)) :
  Permutation (q_push x c) (x :: c).
Proof. reflexivity. Qed.

Lemma wrapper_new_items :
  (q_new : PriorityQueueWrapper (std_priority_queue less)) = [].
Proof. reflexivity. Qed.

#[export] Instance PriorityQueueWrapper_QueueSpec
  : QueueSpec (Q := PriorityQueueWrapper (std_priority_queue less)) := {|
  q_items := fun c => c;
  q_new_items := wrapper_new_items;
  q_empty_items := wrapper_empty_items;
  q_front_pop_items := wrapper_front_pop_items;
  q_empty_undefined := wrapper_empty_undefined;
  q_push_items := wrapper_push_items
|}.

(** The comparator is a strict order, as [Compare] has to be. *)
Hypothesis less_irrefl : forall x, less x x = false.
Hypothesis less_trans :
  forall x y z, less x y = true -> less y z = true -> less x z = true.

Lemma extract_max_greatest (l : list T) (x : T) (r : list T) :
  extract_max less l = Some (x, r) ->
  forall y, In y l -> less x y = false.
Proof.
  revert x r. induction l as [|a l IH]; simpl; intros x r; [discriminate|].
  destruct (extract_max less l) as [[z r']|] eqn:E.
  - destruct (less z a) eqn:Hza; intros [= <- <-] y [<-|Hy]; auto.
    + destruct (less a y) eqn:Hay; auto.
      pose proof (IH z r' eq_refl y Hy) as Hzy.
      rewrite (@less_trans z a y Hza Hay) in Hzy. discriminate.
    + eapply IH; eauto.
  - intros [= <- <-] y [<-|Hy]; auto.
    apply extract_max_none in E. subst. contradiction.
Qed.

End Priority.

(** ** Priority mode: the order of removals *)

Section PriorityOrder.
Context {T : Type}.
Variable less : T -> T -> bool.
Variable choose : list tid -> nat.
Hypothesis less_irrefl : forall x, less x x = false.
Hypothesis less_trans :
  forall x y z, less x y = true -> less y z = true -> less x z = true.

Lemma wrapper_front_pop_extract
  (c c' : PriorityQueueWrapper (std_priority_queue less)) (x : T) :
  q_front c = Some x -> q_pop c = Some c' ->
  extract_max less c = Some (x, c').
Proof.
  simpl. unfold front. simpl.
  destruct (extract_max less c) as [[y r]|]; simpl; [|discriminate].
  intros [= ->] [= ->]. reflexivity.
Qed.

Lemma pushed_item_is_push (t : tid) (a : @action T) (o : outcome) (x : T) :
  pushed_item (t, a, o) = [x] -> is_push a = true.
Proof.
  destruct a as [c| |]; simpl; try discriminate.
  destruct c; simpl; try discriminate; reflexivity.
Qed.

Lemma only_consumers_cons (t : tid) (a : @action T)
  (rest : list (tid * action)) :
  only_consumers ((t, a) :: rest) = true ->
  is_push a = false /\ is_clear a = false /\ only_consumers rest = true.
Proof.
  unfold only_consumers. simpl.
  rewrite !andb_true_iff, !negb_true_iff. tauto.
Qed.

(** X11.  As long as nothing is pushed or cleared, a priority queue hands
    out stored items in non-increasing order: an item returned earlier is
    never less than one returned later, whichever threads pop and however
    they block and wake up. *)
Theorem priority_pops_descend (sched : list (tid * action))
  (S S' : @system (PriorityQueueWrapper (std_priority_queue less)))
  (h : list observation) :
  pop_frames (suspended S) ->
  only_consumers sched = true ->
  run choose sched S = Some (h, S') ->
  ForallOrdPairs (fun x y => less x y = false) (popped h) /\
  (forall y, In y (popped h) -> In y (q (bq (sys_world S)))).
Proof.
  revert S h. induction sched as [|[t a] rest IH]; intros S h F Ho; simpl.
  - intros [= <- <-]. split; [constructor | intros y []].
  - apply only_consumers_cons in Ho. destruct Ho as (Hp & Hc & Ho).
    destruct (sys_step choose t a S) as [[o S1]|] eqn:E1; [|discriminate].
    destruct (run choose rest S1) as [[h1 S2]|] eqn:E2; [|discriminate].
    intros [= <- <-].
    pose proof (sys_step_pop_frames choose t a S F E1) as F1.
    pose proof (sys_step_storage choose t a S F Hc E1) as Hs.
    destruct (IH S1 h1 F1 Ho E2) as [IHo IHi].
    change (popped ((t, a, o) :: h1))
      with (popped_item (t, a, o) ++ popped h1).
    destruct Hs as [x Hpu _ _|x _ Hpo _ Hf Hq|_ Hpo Hq].
    + apply pushed_item_is_push in Hpu. congruence.
    + rewrite Hpo. simpl.
      pose proof (@wrapper_front_pop_extract _ _ x Hf Hq) as Hx.
      pose proof (@extract_max_perm T less _ x _ Hx) as HP.
      assert (Hsub : forall y, In y (popped h1) ->
                       In y (q (bq (sys_world S)))).
      { intros y Hy. eapply Permutation_in; [symmetry; exact HP|].
        right. apply IHi, Hy. }
      split.
      * constructor; [|exact IHo]. apply Forall_forall. intros y Hy.
        apply (@extract_max_greatest T less less_irrefl less_trans _ x _ Hx).
        apply Hsub, Hy.
      * intros y [<-|Hy]; [|apply Hsub, Hy].
        eapply Permutation_in; [symmetry; exact HP|]. left. reflexivity.
    + rewrite Hpo. simpl. rewrite Hq in IHi. split; assumption.
Qed.

End PriorityOrder.

(** ** Priority mode: what [pop()] and [try_pop()] return *)

Section PriorityPop.
Context {T : Type}.
Variable less : T -> T -> bool.

(** C9.  The adaptor changes nothing but [front()], which is the priority
    queue's [top()]: a stored element that no stored element exceeds under
    the comparator, wherever it was inserted; it is an observation and
    leaves the container alone.  So on a [BlockingPriorityQueue] that holds
    items, [pop()] and [try_pop()] both return, and what they return is such
    a greatest element, of which they remove one occurrence. *)
Theorem priority_pop_returns_maximum (t : tid)
  (w : BlockingPriorityQueue less) :
  strict_weak_order less -> lock_ok w -> can_enter t w ->
  (forall (P : Type) (PQ : PriorityQueue T P) (c : PriorityQueueWrapper P),
     q_front c = front c /\ front c = pq_top (c : P) /\
     q_pop c = pq_pop (c : P) /\ q_empty c = pq_empty (c : P) /\
     forall x, q_push x c = pq_push x (c : P)) /\
  (forall (c : PriorityQueueWrapper (std_priority_queue less)) x,
     q_front c = Some x ->
     In x c /\ forall y, In y c -> less x y = false) /\
  (forall x w',
     pop t w = Ret x w' \/ try_pop t w = Ret x w' ->
     In x (q (bq w)) /\
     (forall y, In y (q (bq w)) -> less x y = false) /\
     Permutation (q (bq w)) (x :: q (bq w'))) /\
  (q_empty (q (bq w)) = false ->
   exists x w1 w2,
     pop t w = Ret x w1 /\ try_pop t w = Ret x w2 /\
     q (bq w2) = q (bq w1) /\
     In x (q (bq w)) /\
     (forall y, In y (q (bq w)) -> less x y = false) /\
     Permutation (q (bq w)) (x :: q (bq w1))).
Proof.
  intros (Hirr & Htr & _) Hl Hc.
  assert (Hfront : forall (c : PriorityQueueWrapper (std_priority_queue less)) x,
             q_front c = Some x ->
             exists r, extract_max less c = Some (x, r)).
  { intros c x. simpl. unfold front. simpl.
    destruct (extract_max less c) as [[y r]|]; simpl; [|discriminate].
    intros [= ->]. eauto. }
  assert (Hmax : forall (c r : list T) x,
             extract_max less c = Some (x, r) ->
             In x c /\ (forall y, In y c -> less x y = false) /\
             Permutation c (x :: r)).
  { intros c r x E. split; [|split].
    - eapply Permutation_in;
        [symmetry; exact (@extract_max_perm T less c x r E)|].
      left. reflexivity.
    - exact (@extract_max_greatest T less Hirr Htr c x r E).
    - exact (@extract_max_perm T less c x r E). }
  split; [|split; [|split]].
  - intros P PQ c. repeat split.
  - intros c x Hf. destruct (Hfront c x Hf) as [r E].
    destruct (Hmax c r x E) as (Hi & Hg & _). split; assumption.
  - intros x w' E.
    assert (Hfp : q_front (q (bq w)) = Some x /\
                  q_pop (q (bq w)) = Some (q (bq w'))).
    { destruct E as [E|E]; [apply pop_ret in E | apply try_pop_ret in E];
        exact E. }
    destruct Hfp as [Hf Ho].
    exact (Hmax _ _ x (@wrapper_front_pop_extract T less _ _ x Hf Ho)).
  - intros He.
    destruct (@pop_enter T _ _ (PriorityQueueWrapper_QueueSpec less) t w
                Hl Hc He) as (x & c1 & w1 & Hf1 & Hp1 & E1 & Hq1 & _).
    destruct (@try_pop_enter T _ _ (PriorityQueueWrapper_QueueSpec less) t w
                Hl Hc He) as (x2 & c2 & w2 & Hf2 & Hp2 & E2 & Hq2 & _).
    assert (x2 = x) by congruence. assert (c2 = c1) by congruence.
    subst x2 c2. exists x, w1, w2.
    split; [exact E1|]. split; [exact E2|]. split; [congruence|].
    rewrite Hq1.
    exact (Hmax _ _ x (@wrapper_front_pop_extract T less _ _ x Hf1 Hp1)).
Qed.

End PriorityPop.

(** ** The theorems at work on concrete queues *)

(** [notify_one] wakes the thread that has been blocked longest. *)
Definition wake_first : list tid -> nat := fun _ => 0.

(** A consumer (thread 1) that starts before the producer (thread 0): it
    blocks, is notified by the first push, resumes, and goes on popping
    while the producer pushes. *)
Definition fifo_sched : list (tid * @action nat) :=
  [ (1, ACall CPop); (0, ACall (CPush 10)); (0, ACall (CPush 20));
    (1, AResume); (1, ACall CTryPop); (0, ACall (CPushMove 30));
    (1, ACall CPop) ].

Definition fifo_outcome : option (list observation * @system (std_queue nat)) :=
  Eval vm_compute in run wake_first fifo_sched system_new.

Definition fifo_hist : list (@observation nat) :=
  Eval vm_compute in
    match fifo_outcome with Some (h, _) => h | None => [] end.

Definition fifo_final : @system (std_queue nat) :=
  Eval vm_compute in
    match fifo_outcome with Some (_, sys) => sys | None => system_new end.

Lemma fifo_order_witness :
  run wake_first fifo_sched system_new = Some (fifo_hist, fifo_final) /\
  no_clear fifo_sched = true /\
  pushed fifo_hist = [10; 20; 30] /\
  popped fifo_hist = [10; 20; 30].
Proof.
  split; [reflexivity|]. split; [reflexivity|]. split; [reflexivity|].
  exact (proj1 (@fifo_order nat wake_first fifo_sched fifo_hist fifo_final
                  [10; 20; 30] eq_refl eq_refl eq_refl eq_refl)).
Defined.

(** A new queue, a queue holding three items, and a queue on which thread 1
    sleeps in [pop()]. *)
Definition new_queue : @world (std_queue nat) := BlockingQueue_new.

Definition stocked_queue : @world (std_queue nat) :=
  {| bq := {| q := [1; 2; 3]; m := None; cv := []; owningThread := no_thread |};
     trace := [] |}.

Definition awaited_queue : @world (std_queue nat) :=
  {| bq := {| q := []; m := None; cv := [1]; owningThread := no_thread |};
     trace := [EvWait 1; EvUnlock 1; EvLock 1] |}.

Lemma try_pop_raises_iff_empty_witness :
  lock_ok new_queue /\ can_enter 1 new_queue /\
  exists w', try_pop 1 new_queue = Throw out_of_range w'.
Proof.
  split; [reflexivity|]. split; [left; reflexivity|].
  exact (proj2 (proj1 (@try_pop_raises_iff_empty nat (std_queue nat) _
                         wake_first _ 1 new_queue eq_refl
                         (or_introl eq_refl))) eq_refl).
Defined.

Lemma pop_never_fails_witness :
  lock_ok stocked_queue /\ can_enter 1 stocked_queue /\
  exists x c' w',
    q_front (q (bq stocked_queue)) = Some x /\
    q_pop (q (bq stocked_queue)) = Some c' /\
    pop 1 stocked_queue = Ret x w' /\ q (bq w') = c'.
Proof.
  split; [reflexivity|]. split; [left; reflexivity|].
  exact (proj1 (proj2 (proj2 (@pop_never_fails nat (std_queue nat) _
                                wake_first _ 1 stocked_queue eq_refl
                                (or_introl eq_refl))))
           eq_refl).
Defined.

Definition awaited_after_push : @world (std_queue nat) :=
  Eval vm_compute in
    match push wake_first 0 5 awaited_queue with
    | Ret _ w' => w'
    | _ => awaited_queue
    end.

Lemma push_signals_iff_was_empty_witness :
  push wake_first 0 5 awaited_queue = Ret tt awaited_after_push /\
  notify_count (trace awaited_after_push) =
    notify_count (trace awaited_queue) + 1 /\
  length (cv (bq awaited_after_push)) = length (cv (bq awaited_queue)) - 1.
Proof.
  split; [reflexivity|].
  exact (proj2 (@push_signals_iff_was_empty nat (std_queue nat) _
                  wake_first 5 awaited_queue)
           0 awaited_after_push (or_introl eq_refl)).
Defined.

(** Thread 1 locks; thread 2 fails to lock and does not own; thread 1
    unlocks; thread 2 locks. *)
Definition lock_sched : list (tid * @action nat) :=
  [ (1, ACall CLock); (2, ACall (CTryLock false)); (2, ACall COwnsLock);
    (1, ACall COwnsLock); (1, ACall CUnlock); (2, ACall (CTryLock false)) ].

Definition lock_outcome : option (list observation * @system (std_queue nat)) :=
  Eval vm_compute in run wake_first lock_sched system_new.

Definition lock_hist : list (@observation nat) :=
  Eval vm_compute in
    match lock_outcome with Some (h, _) => h | None => [] end.

Definition lock_final : @system (std_queue nat) :=
  Eval vm_compute in
    match lock_outcome with Some (_, sys) => sys | None => system_new end.

Lemma owner_register_state_machine_witness :
  run wake_first lock_sched system_new = Some (lock_hist, lock_final) /\
  owner_after (trace (sys_world lock_final)) =
    Some (register_state (owningThread (bq (sys_world lock_final)))).
Proof.
  split; [reflexivity|].
  exact (proj1 (proj2 (proj2
           (@owner_register_state_machine nat (std_queue nat) _ wake_first
              lock_sched lock_hist lock_final eq_refl)))).
Defined.

Definition new_after_try_pop : @world (std_queue nat) :=
  Eval vm_compute in
    match try_pop 1 new_queue with
    | Throw _ w' => w'
    | _ => new_queue
    end.


(** Two producers (threads 1 and 2) pushing five items each, interleaved,
    and a consumer (thread 0) popping ten times, sleeping once. *)
Definition contention_sched : list (tid * @action nat) :=
  [ (0, ACall CPop);
    (1, ACall (CPush 1)); (2, ACall (CPush 6)); (0, AResume);
    (1, ACall (CPush 2)); (1, ACall (CPush 3)); (0, ACall CPop);
    (2, ACall (CPush 7)); (0, ACall CPop); (2, ACall (CPush 8));
    (1, ACall (CPush 4)); (0, ACall CPop); (0, ACall CPop);
    (2, ACall (CPush 9)); (1, ACall (CPush 5)); (2, ACall (CPush 10));
    (0, ACall CPop); (0, ACall CPop); (0, ACall CPop); (0, ACall CPop);
    (0, ACall CPop); (0, ACall CTryPop) ].

Definition contention_outcome
  : option (list observation * @system (std_queue nat)) :=
  Eval vm_compute in run wake_first contention_sched system_new.

Definition contention_hist : list (@observation nat) :=
  Eval vm_compute in
    match contention_outcome with Some (h, _) => h | None => [] end.

Definition contention_final : @system (std_queue nat) :=
  Eval vm_compute in
    match contention_outcome with
    | Some (_, sys) => sys
    | None => system_new
    end.

Lemma conservation_witness :
  run wake_first contention_sched system_new =
    Some (contention_hist, contention_final) /\
  no_clear contention_sched = true /\
  q_items (q (bq (sys_world contention_final))) = [] /\
  Permutation (popped contention_hist) (pushed contention_hist).
Proof.
  split; [reflexivity|]. split; [reflexivity|]. split; [reflexivity|].
  exact (proj2 (@conservation nat (std_queue nat) _ wake_first
                  (std_queue_QueueSpec nat) contention_sched contention_hist contention_final
                  eq_refl eq_refl) eq_refl).
Defined.

Lemma clear_empties_witness :
  lock_ok stocked_queue /\ can_enter 1 stocked_queue /\
  length (q_items (q (bq stocked_queue))) <= 3 /\
  exists w', clear 3 1 stocked_queue = Ret tt w' /\ q (bq w') = [].
Proof.
  split; [reflexivity|]. split; [left; reflexivity|].
  split; [apply le_n|].
  destruct (@clear_empties nat (std_queue nat) _ wake_first
              (std_queue_QueueSpec nat) 3 1
              stocked_queue eq_refl (or_introl eq_refl) (le_n 3))
    as (w' & E & Hi & _).
  exists w'. split; assumption.
Defined.

Lemma try_pop_error_atomic_witness :
  lock_ok new_queue /\
  try_pop 1 new_queue = Throw out_of_range new_after_try_pop /\
  bq new_after_try_pop = bq new_queue.
Proof.
  split; [reflexivity|]. split; [reflexivity|].
  exact (proj1 (@try_pop_error_atomic nat (std_queue nat) _ 1 new_queue
                  new_after_try_pop out_of_range eq_refl eq_refl)).
Defined.

(** A priority queue that received 1, then 3, then 2. *)
Definition priority_sched : list (tid * @action nat) :=
  [ (0, ACall (CPush 1)); (0, ACall (CPush 3)); (0, ACall (CPush 2)) ].

Definition priority_queue_132 : BlockingPriorityQueue Nat.ltb :=
  Eval vm_compute in
    match run wake_first priority_sched system_new with
    | Some (_, sys) => sys_world sys
    | None => BlockingQueue_new
    end.

Definition priority_after_pop : BlockingPriorityQueue Nat.ltb :=
  Eval vm_compute in
    match pop 1 priority_queue_132 with
    | Ret _ w' => w'
    | _ => priority_queue_132
    end.

Lemma nat_ltb_trans (x y z : nat) :
  Nat.ltb x y = true -> Nat.ltb y z = true -> Nat.ltb x z = true.
Proof. rewrite !Nat.ltb_lt. lia. Qed.

Lemma nat_ltb_neg_trans (x y z : nat) :
  Nat.ltb x y = false -> Nat.ltb y z = false -> Nat.ltb x z = false.
Proof. rewrite !Nat.ltb_ge. lia. Qed.

Lemma nat_ltb_strict_weak_order : strict_weak_order Nat.ltb.
Proof.
  split; [exact Nat.ltb_irrefl|].
  split; [exact nat_ltb_trans | exact nat_ltb_neg_trans].
Qed.

Definition priority_after_try_pop : BlockingPriorityQueue Nat.ltb :=
  Eval vm_compute in
    match try_pop 1 priority_queue_132 with
    | Ret _ w' => w'
    | _ => priority_queue_132
    end.

Lemma priority_pop_returns_maximum_witness :
  strict_weak_order Nat.ltb /\
  lock_ok priority_queue_132 /\ can_enter 1 priority_queue_132 /\
  q_empty (q (bq priority_queue_132)) = false /\
  pop 1 priority_queue_132 = Ret 3 priority_after_pop /\
  try_pop 1 priority_queue_132 = Ret 3 priority_after_try_pop /\
  exists x w1 w2,
    pop 1 priority_queue_132 = Ret x w1 /\
    try_pop 1 priority_queue_132 = Ret x w2 /\
    q (bq w2) = q (bq w1) /\
    In x (q (bq priority_queue_132)) /\
    (forall y, In y (q (bq priority_queue_132)) -> Nat.ltb x y = false) /\
    Permutation (q (bq priority_queue_132)) (x :: q (bq w1)).
Proof.
  split; [exact nat_ltb_strict_weak_order|].
  split; [reflexivity|]. split; [left; reflexivity|].
  split; [reflexivity|]. split; [reflexivity|]. split; [reflexivity|].
  exact (proj2 (proj2 (proj2
           (@priority_pop_returns_maximum nat Nat.ltb 1 priority_queue_132
              nat_ltb_strict_weak_order eq_refl (or_introl eq_refl))))
           eq_refl).
Defined.

(** *** Concrete inputs for the further properties *)

(** A queue holding three items whose lock thread 1 holds. *)
Definition held_queue : @world (std_queue nat) :=
  {| bq := {| q := [1; 2; 3]; m := Some 1; cv := [];
              owningThread := this_thread_get_id 1 |};
     trace := [EvLock 1] |}.

(** A moved-from [std::queue] that is left empty. *)
Definition moved_from_empty : std_queue nat -> std_queue nat := fun _ => [].

Definition move_outcome : @result (std_queue nat) (@world (std_queue nat)) :=
  Eval vm_compute in BlockingQueue_move 1 moved_from_empty stocked_queue.

Lemma move_transfers_contents_witness :
  lock_ok stocked_queue /\
  exists new other',
    BlockingQueue_move 1 moved_from_empty stocked_queue = Ret new other' /\
    q (bq new) = [1; 2; 3] /\ q (bq other') = [] /\
    m (bq other') = None.
Proof.
  split; [reflexivity|].
  pose proof (@move_transfers_contents (std_queue nat) 1
                moved_from_empty stocked_queue eq_refl) as Hm.
  change (BlockingQueue_move 1 moved_from_empty stocked_queue)
    with move_outcome in *.
  unfold move_outcome in *.
  destruct Hm as (_ & Hn & Hq & Hm & _).
  eexists. eexists. split; [reflexivity|]. split; [|split].
  - rewrite Hn. reflexivity.
  - exact Hq.
  - exact Hm.
Defined.

Lemma lock_excludes_others_witness :
  lock_ok held_queue /\ m (bq held_queue) = Some 1 /\ 2 <> 1 /\
  exec wake_first 2 CPop held_queue = Stuck Blocked /\
  try_lock 2 false held_queue = Ret false held_queue.
Proof.
  split; [reflexivity|]. split; [reflexivity|]. split; [lia|].
  pose proof (@lock_excludes_others nat (std_queue nat) _ wake_first
                1 2 held_queue eq_refl eq_refl ltac:(lia)) as He.
  destruct He as (_ & Hd & _ & Ht & _).
  split; [exact (Hd CPop eq_refl) | exact (Ht false)].
Defined.

Lemma try_lock_never_blocks_witness :
  lock_ok held_queue /\ owns_lock 2 held_queue = false /\
  exists b w',
    try_lock 2 false held_queue = Ret b w' /\
    (b = true <-> m (bq held_queue) = None /\ false = false) /\
    (b = false -> w' = held_queue).
Proof.
  split; [reflexivity|]. split; [reflexivity|].
  destruct (@try_lock_never_blocks (std_queue nat) 2 false held_queue
              eq_refl eq_refl) as (b & w' & E & Hb & Hf & _).
  exists b, w'. split; [exact E|]. split; [exact Hb | exact Hf].
Defined.

Definition new_locked : @world (std_queue nat) :=
  Eval vm_compute in locked_by 1 new_queue.

Lemma lock_unlock_round_trip_witness :
  lock_ok new_queue /\ lock 1 new_queue = Ret tt new_locked /\
  owns_lock 1 new_locked = true /\
  exists w2, unlock 1 new_locked = Ret tt w2 /\ bq w2 = bq new_queue /\
             owns_lock 1 w2 = false.
Proof.
  split; [reflexivity|]. split; [reflexivity|].
  pose proof (@lock_unlock_round_trip (std_queue nat) 1 new_queue
                new_locked eq_refl (or_introl eq_refl)) as Hr.
  destruct Hr as (_ & Ho & Hu). split; [exact Ho | exact Hu].
Defined.

Definition stocked_after_empty : @world (std_queue nat) :=
  Eval vm_compute in
    match empty 1 stocked_queue with
    | Ret _ w' => w'
    | _ => stocked_queue
    end.

Lemma empty_is_read_only_witness :
  lock_ok stocked_queue /\
  empty 1 stocked_queue = Ret false stocked_after_empty /\
  bq stocked_after_empty = bq stocked_queue.
Proof.
  split; [reflexivity|]. split; [reflexivity|].
  exact (proj1 (@empty_is_read_only nat (std_queue nat) _ 1 stocked_queue
                  stocked_after_empty false eq_refl eq_refl)).
Defined.

Definition stocked_after_clear : @world (std_queue nat) :=
  Eval vm_compute in
    match clear 3 1 stocked_queue with
    | Ret _ w' => w'
    | _ => stocked_queue
    end.

Lemma clear_idempotent_witness :
  lock_ok stocked_queue /\
  clear 3 1 stocked_queue = Ret tt stocked_after_clear /\
  exists w2, clear 0 1 stocked_after_clear = Ret tt w2 /\
             bq w2 = bq stocked_after_clear.
Proof.
  split; [reflexivity|]. split; [reflexivity|].
  exact (proj2 (proj2 (@clear_idempotent nat (std_queue nat) _ 3 0 1
                         stocked_queue stocked_after_clear
                         eq_refl eq_refl))).
Defined.

Lemma push_try_pop_round_trip_witness :
  lock_ok new_queue /\ can_enter 1 new_queue /\
  q_items (q (bq new_queue)) = [] /\
  exists w1 w2,
    push wake_first 1 7 new_queue = Ret tt w1 /\
    try_pop 1 w1 = Ret 7 w2 /\ q_items (q (bq w2)) = [].
Proof.
  split; [reflexivity|]. split; [left; reflexivity|].
  split; [reflexivity|].
  destruct (@push_try_pop_round_trip nat (std_queue nat) _ wake_first
              (std_queue_QueueSpec nat) 1 7 new_queue
              eq_refl (or_introl eq_refl) eq_refl)
    as (w1 & w2 & E1 & E2 & Hi & _).
  exists w1, w2. split; [exact E1|]. split; [exact E2 | exact Hi].
Defined.

(** Two consumers asleep on an empty queue. *)
Definition two_sleepers : @system (std_queue nat) :=
  Eval vm_compute in
    match run wake_first [ (1, ACall CPop); (2, ACall CPop) ]
            (@system_new nat (std_queue nat) _) with
    | Some (_, sys) => sys
    | None => system_new
    end.

Definition burst_sched : list (tid * @action nat) :=
  [ (0, ACall (CPush 1)); (3, ACall (CPush 2)); (0, ACall (CPushMove 3)) ].

Definition burst_outcome : option (list observation * @system (std_queue nat)) :=
  Eval vm_compute in run wake_first burst_sched two_sleepers.

Definition burst_hist : list (@observation nat) :=
  Eval vm_compute in
    match burst_outcome with Some (h, _) => h | None => [] end.

Definition burst_final : @system (std_queue nat) :=
  Eval vm_compute in
    match burst_outcome with Some (_, sys) => sys | None => system_new end.

Lemma push_burst_notifies_once_witness :
  only_pushes burst_sched = true /\ burst_sched <> [] /\
  q_empty (q (bq (sys_world two_sleepers))) = true /\
  run wake_first burst_sched two_sleepers = Some (burst_hist, burst_final) /\
  length (cv (bq (sys_world two_sleepers))) = 2 /\
  length (cv (bq (sys_world burst_final))) = 1 /\
  q_empty (q (bq (sys_world burst_final))) = false.
Proof.
  split; [reflexivity|]. split; [discriminate|]. split; [reflexivity|].
  split; [reflexivity|]. split; [reflexivity|].
  pose proof (@push_burst_notifies_once nat (std_queue nat) _ wake_first
                (std_queue_QueueSpec nat) burst_sched two_sleepers
                burst_final burst_hist eq_refl ltac:(discriminate)
                eq_refl eq_refl) as Hb.
  destruct Hb as (_ & Hc & He & _). split; [exact Hc | exact He].
Defined.

Definition clearing_sched : list (tid * @action nat) :=
  [ (0, ACall (CPush 1)); (0, ACall (CPush 2)); (1, ACall CPop);
    (0, ACall (CClear 5)); (0, ACall (CPush 3)); (1, ACall CTryPop) ].

Definition clearing_outcome
  : option (list observation * @system (std_queue nat)) :=
  Eval vm_compute in run wake_first clearing_sched system_new.

Definition clearing_hist : list (@observation nat) :=
  Eval vm_compute in
    match clearing_outcome with Some (h, _) => h | None => [] end.

Definition clearing_final : @system (std_queue nat) :=
  Eval vm_compute in
    match clearing_outcome with
    | Some (_, sys) => sys
    | None => system_new
    end.

Lemma nothing_returned_unpushed_witness :
  run wake_first clearing_sched system_new =
    Some (clearing_hist, clearing_final) /\
  pushed clearing_hist = [1; 2; 3] /\ popped clearing_hist = [1; 3] /\
  flat_map q_items (cleared_storage wake_first clearing_sched system_new) =
    [2] /\
  Permutation (pushed clearing_hist)
    (popped clearing_hist
     ++ flat_map q_items (cleared_storage wake_first clearing_sched system_new)
     ++ q_items (q (bq (sys_world clearing_final)))).
Proof.
  split; [reflexivity|]. split; [reflexivity|]. split; [reflexivity|].
  split; [reflexivity|].
  exact (proj1 (@nothing_returned_unpushed nat (std_queue nat) _
                  wake_first (std_queue_QueueSpec nat) clearing_sched
                  clearing_hist clearing_final eq_refl)).
Defined.

(** Two consumers fall asleep; one push wakes the first of them. *)
Definition sleepers_sched : list (tid * @action nat) :=
  [ (1, ACall CPop); (2, ACall CPop); (0, ACall (CPush 5)) ].

Definition sleepers_outcome
  : option (list observation * @system (std_queue nat)) :=
  Eval vm_compute in run wake_first sleepers_sched system_new.

Definition sleepers_hist : list (@observation nat) :=
  Eval vm_compute in
    match sleepers_outcome with Some (h, _) => h | None => [] end.

Definition sleepers_final : @system (std_queue nat) :=
  Eval vm_compute in
    match sleepers_outcome with
    | Some (_, sys) => sys
    | None => system_new
    end.

Lemma sleeping_consumers_hold_no_lock_witness :
  run wake_first sleepers_sched system_new =
    Some (sleepers_hist, sleepers_final) /\
  find_frame 2 (suspended sleepers_final) =
    Some (KScope {| owns := true |} KWait) /\
  m (bq (sys_world sleepers_final)) <> Some 2 /\
  NoDup (cv (bq (sys_world sleepers_final))).
Proof.
  split; [reflexivity|]. split; [reflexivity|].
  pose proof (@sleeping_consumers_hold_no_lock nat (std_queue nat) _
                wake_first (std_queue_QueueSpec nat) sleepers_sched
                sleepers_hist sleepers_final eq_refl) as Hs.
  destruct Hs as (Hf & _ & Hn).
  split; [|exact Hn].
  exact (proj1 (proj2 (Hf 2 (KScope {| owns := true |} KWait) eq_refl))).
Defined.

Definition priority_start
  : @system (PriorityQueueWrapper (std_priority_queue Nat.ltb)) :=
  {| sys_world := priority_queue_132; suspended := [] |}.

Definition drain_sched : list (tid * @action nat) :=
  [ (1, ACall CPop); (2, ACall CTryPop); (1, ACall CPop) ].

Definition drain_outcome
  : option (list observation *
            @system (PriorityQueueWrapper (std_priority_queue Nat.ltb))) :=
  Eval vm_compute in run wake_first drain_sched priority_start.

Definition drain_hist : list (@observation nat) :=
  Eval vm_compute in
    match drain_outcome with Some (h, _) => h | None => [] end.

Definition drain_final
  : @system (PriorityQueueWrapper (std_priority_queue Nat.ltb)) :=
  Eval vm_compute in
    match drain_outcome with Some (_, sys) => sys | None => priority_start end.

Lemma priority_pops_descend_witness :
  (forall x, Nat.ltb x x = false) /\
  (forall x y z,
     Nat.ltb x y = true -> Nat.ltb y z = true -> Nat.ltb x z = true) /\
  pop_frames (suspended priority_start) /\
  only_consumers drain_sched = true /\
  run wake_first drain_sched priority_start = Some (drain_hist, drain_final) /\
  popped drain_hist = [3; 2; 1] /\
  ForallOrdPairs (fun x y => Nat.ltb x y = false) (popped drain_hist).
Proof.
  split; [exact Nat.ltb_irrefl|]. split; [exact nat_ltb_trans|].
  split; [constructor|]. split; [reflexivity|]. split; [reflexivity|].
  split; [reflexivity|].
  exact (proj1 (@priority_pops_descend nat Nat.ltb wake_first
                  Nat.ltb_irrefl nat_ltb_trans drain_sched priority_start
                  drain_final drain_hist (Forall_nil _) eq_refl eq_refl)).
Defined.

(** ** The scenarios of the test suite *)

(** Getters: push 1, 2, 3; the queue is not empty; [pop()] returns 1;
    [clear()]; the queue is empty. *)
Example scenario_getters :
  option_map fst
    (run wake_first
       [ (0, ACall CEmpty); (0, ACall (CPush 1)); (0, ACall (CPush 2));
         (0, ACall (CPush 3)); (0, ACall CEmpty); (0, ACall CPop);
         (0, ACall (CClear 2)); (0, ACall CEmpty) ]
       (@system_new nat (std_queue nat) _)) =
  Some
    [ (0, ACall CEmpty, OReturn (VBool true));
      (0, ACall (CPush 1), OReturn VUnit);
      (0, ACall (CPush 2), OReturn VUnit);
      (0, ACall (CPush 3), OReturn VUnit);
      (0, ACall CEmpty, OReturn (VBool false));
      (0, ACall CPop, OReturn (VItem 1));
      (0, ACall (CClear 2), OReturn VUnit);
      (0, ACall CEmpty, OReturn (VBool true)) ].
Proof. reflexivity. Qed.

(** Contention: ten pushes by two producers, ten pops, and an eleventh
    [try_pop()] that throws. *)
Example scenario_contention :
  popped contention_hist = [1; 6; 2; 3; 7; 8; 4; 9; 5; 10] /\
  last contention_hist (0, AWake, OWake) =
    (0, ACall CTryPop, OThrow out_of_range).
Proof. split; reflexivity. Qed.

(** MultipleLockers: while thread 1 holds the lock, thread 2 neither locks
    nor owns; after the unlock thread 2 locks. *)
Example scenario_lockers :
  lock_hist =
  [ (1, ACall CLock, OReturn VUnit);
    (2, ACall (CTryLock false), OReturn (VBool false));
    (2, ACall COwnsLock, OReturn (VBool false));
    (1, ACall COwnsLock, OReturn (VBool true));
    (1, ACall CUnlock, OReturn VUnit);
    (2, ACall (CTryLock false), OReturn (VBool true)) ].
Proof. reflexivity. Qed.

(** The priority queue hands out 3, 2, 1 for the insertions 1, 3, 2. *)
Example scenario_priority :
  option_map (fun r => popped (fst r))
    (run wake_first
       (priority_sched ++ [ (1, ACall CPop); (1, ACall CPop); (1, ACall CPop) ])
       (@system_new nat (PriorityQueueWrapper (std_priority_queue Nat.ltb)) _)) =
  Some [3; 2; 1].
Proof. reflexivity. Qed.
